(** * SelectionElement: a shallow embedding of [src/SelectionElement.js]

    The custom element keeps no selection state of its own: an item is
    selected when it carries the [data-selected] attribute.  The model below
    therefore threads one record through every method: the host element, its
    live [children] collection, the [parentElement] relation of the
    surrounding tree, the attribute store of every element, the private
    [#allowMultipeSelections] field and the events the element has
    dispatched.  A method of the class is a function on that record; a method
    that can dereference [null]/[undefined] returns an [option], [None]
    standing for the [TypeError] JavaScript raises there. *)

From Stdlib Require Import Floats.PrimFloat.
From stdpp Require Import gmap strings list.
From Stdlib Require Import ZArith.

Local Open Scope Z_scope.

(** ** Geometry *)

(** A [DOMRect] stores [x], [y], [width] and [height], each a JavaScript
    number: an IEEE 754 binary64 value, here [float], whose [+], [-], [<=]
    round and compare as the source's do.  The four edges are derived, as in
    the Geometry Interfaces specification: the NaN-safe minimum and maximum
    of the two coordinates on an axis. *)
Module Rect.

Record DOMRect := { x : float; y : float; width : float; height : float }.

(** NaN if an argument is NaN, the smaller (larger) argument otherwise.  For
    [+0] against [-0], which compare equal, either may be returned; no
    comparison tells them apart. *)
Definition min (a b : float) : float :=
  if PrimFloat.is_nan a || PrimFloat.is_nan b then PrimFloat.nan
  else if PrimFloat.ltb a b then a else b.
Definition max (a b : float) : float :=
  if PrimFloat.is_nan a || PrimFloat.is_nan b then PrimFloat.nan
  else if PrimFloat.ltb a b then b else a.

Definition top (r : DOMRect) : float :=
  min (y r) (PrimFloat.add (y r) (height r)).
Definition right (r : DOMRect) : float :=
  max (x r) (PrimFloat.add (x r) (width r)).
Definition bottom (r : DOMRect) : float :=
  max (y r) (PrimFloat.add (y r) (height r)).
Definition left (r : DOMRect) : float :=
  min (x r) (PrimFloat.add (x r) (width r)).

(** The rectangle with corners [(l, t)] and [(r, b)]. *)
Definition ofEdges (l t r b : float) : DOMRect :=
  {| x := l; y := t;
     width := PrimFloat.sub r l; height := PrimFloat.sub b t |}.

End Rect.

Abbreviation DOMRect := Rect.DOMRect.

(** [#rectContains = (a, b) => ...] *)
Definition rectContains (a b : DOMRect) : bool :=
  PrimFloat.leb (Rect.left a) (Rect.left b) &&
  PrimFloat.leb (Rect.right b) (Rect.right a) &&
  PrimFloat.leb (Rect.top a) (Rect.top b) &&
  PrimFloat.leb (Rect.bottom b) (Rect.bottom a).

(** ** Elements, attributes and the state of the control *)

(** Elements are identified by a number (object identity, [===]). *)
Abbreviation node := nat (only parsing).

(** What the element does to the outside world. *)
Inductive Effect :=
  | DispatchEvent (type : string)
  | ScrollIntoView (element : node).

Record SelectionElement := {
  this : node;
  children : list node;
  parentElement : gmap node node;
  attributes : gmap (node * string) string;
  allowMultipeSelections : bool;
  effects : list Effect
}.

Definition with_attributes (st : SelectionElement)
    (a : gmap (node * string) string) : SelectionElement :=
  {| this := this st; children := children st;
     parentElement := parentElement st; attributes := a;
     allowMultipeSelections := allowMultipeSelections st;
     effects := effects st |}.

Definition with_allowMultipeSelections (st : SelectionElement) (b : bool)
    : SelectionElement :=
  {| this := this st; children := children st;
     parentElement := parentElement st; attributes := attributes st;
     allowMultipeSelections := b; effects := effects st |}.

Definition perform (st : SelectionElement) (es : list Effect)
    : SelectionElement :=
  {| this := this st; children := children st;
     parentElement := parentElement st; attributes := attributes st;
     allowMultipeSelections := allowMultipeSelections st;
     effects := (effects st ++ es)%list |}.

(** [children[i]] of an [HTMLCollection]: [undefined] out of range. *)
Definition item (l : list node) (i : Z) : option node :=
  if i <? 0 then None else l !! Z.to_nat i.

(** [get length()] *)
Definition length_ (st : SelectionElement) : Z :=
  Z.of_nat (length (children st)).

(** [static get selectedAttributeName()] *)
Definition selectedAttributeName : string := "data-selected".

(** [#isSelected(element)]: [element.hasAttribute(...)] *)
Definition isSelected (st : SelectionElement) (element : node) : bool :=
  bool_decide (is_Some (attributes st !! (element, selectedAttributeName))).

(** [#removeFromSelection(element)]: [element.removeAttribute(...)] *)
Definition removeFromSelection (st : SelectionElement) (element : node)
    : SelectionElement :=
  with_attributes st (delete (element, selectedAttributeName) (attributes st)).

(** [#addToSelection(element)]: [element.setAttribute(..., '')] *)
Definition addToSelection (st : SelectionElement) (element : node)
    : SelectionElement :=
  with_attributes st
    (<[(element, selectedAttributeName) := EmptyString]> (attributes st)).

(** [get selectedChildren()]: [[...this.children].filter(...)] *)
Definition selectedChildren (st : SelectionElement) : list node :=
  filter (λ child, isSelected st child) (children st).

(** [#clearSelection()]: [this.selectedChildren.forEach(...)] *)
Definition clearSelection (st : SelectionElement) : SelectionElement :=
  foldl removeFromSelection st (selectedChildren st).

(** The loop of [get selectedIndex()], from position [index] on. *)
Fixpoint selectedIndex_loop (st : SelectionElement) (rest : list node)
    (index : Z) : Z :=
  match rest with
  | [] => -1
  | child :: rest' =>
      if isSelected st child then index
      else selectedIndex_loop st rest' (index + 1)
  end.

(** [get selectedIndex()] *)
Definition selectedIndex (st : SelectionElement) : Z :=
  selectedIndex_loop st (children st) 0.

(** [set selectedIndex(value)] *)
Definition set_selectedIndex (st : SelectionElement) (value : Z)
    : SelectionElement :=
  let st1 := clearSelection st in
  if (0 <=? value) && (value <? length_ st1) then
    match item (children st1) value with
    | Some child => addToSelection st1 child
    | None => st1 (* not reached: [value] is in range *)
    end
  else st1.

(** [get selectedChild()]; [None] is [null]. *)
Definition selectedChild (st : SelectionElement) : option node :=
  let selectedIndex := selectedIndex st in
  if selectedIndex >? -1 then item (children st) selectedIndex else None.

(** The loop of [set selectedChild(element)]: the first child identical to
    [element] is marked and the loop breaks. *)
Fixpoint set_selectedChild_loop (st : SelectionElement) (rest : list node)
    (element : option node) : SelectionElement :=
  match rest with
  | [] => st
  | child :: rest' =>
      if decide (Some child = element) then addToSelection st child
      else set_selectedChild_loop st rest' element
  end.

(** [set selectedChild(element)]; [element] is an element or [null]. *)
Definition set_selectedChild (st : SelectionElement) (element : option node)
    : SelectionElement :=
  let st1 := clearSelection st in
  set_selectedChild_loop st1 (children st1) element.

(** [attributeChangedCallback(attr, oldValue, newValue)]; an absent attribute
    value is [null], here [None]. *)
Definition attributeChangedCallback (st : SelectionElement) (attr : string)
    (oldValue newValue : option string) : option SelectionElement :=
  if decide (attr = "multiple"%string) then
    st1 ← match newValue with
          | None =>
              let selectedIndex := selectedIndex st in
              if selectedIndex >? -1 then
                let st' := clearSelection st in
                child ← item (children st') selectedIndex;
                Some (addToSelection st' child)
              else Some st
          | Some _ => Some st
          end;
    Some (with_allowMultipeSelections st1 (bool_decide (newValue ≠ None)))
  else Some st.

(** [#scrollSelectionIntoView()] *)
Definition scrollSelectionIntoView (st : SelectionElement)
    : SelectionElement :=
  match selectedChild st with
  | None => st
  | Some child => perform st [ScrollIntoView child]
  end.

(** [#notifySelectionChange()] *)
Definition notifySelectionChange (st : SelectionElement) : SelectionElement :=
  perform st [DispatchEvent "change"; DispatchEvent "input"].

(** ** Page navigation *)

(** The layout at the moment of a key press: [el.getBoundingClientRect()]
    for the host and for every child.  It is an input of each key press, not
    part of the state: scrolling and reflow change it between events. *)
Record Layout := { getBoundingClientRect : node → DOMRect }.

(** [pageBounds.y += dy; pageBounds.x += dx] on a copy of a rectangle
    ([DOMRect.fromRect]), in the arithmetic of doubles. *)
Definition translate (r : DOMRect) (dx dy : float) : DOMRect :=
  {| Rect.x := PrimFloat.add (Rect.x r) dx;
     Rect.y := PrimFloat.add (Rect.y r) dy;
     Rect.width := Rect.width r; Rect.height := Rect.height r |}.

(** [pageBounds.y -= dy; pageBounds.x -= dx] on a copy of a rectangle. *)
Definition translateBack (r : DOMRect) (dx dy : float) : DOMRect :=
  {| Rect.x := PrimFloat.sub (Rect.x r) dx;
     Rect.y := PrimFloat.sub (Rect.y r) dy;
     Rect.width := Rect.width r; Rect.height := Rect.height r |}.

(** [for (let c = selectedIndex + 1; c < this.children.length; c++)]:
    [rest] holds the children from index [c] on; [last] is what follows the
    loop, [this.children.length - 1]. *)
Fixpoint getNextNonvisibleChildIndex_loop (lay : Layout) (pageBounds : DOMRect)
    (rest : list node) (c : Z) (last : Z) : Z :=
  match rest with
  | [] => last
  | child :: rest' =>
      let bounds := getBoundingClientRect lay child in
      if negb (rectContains pageBounds bounds) then c
      else getNextNonvisibleChildIndex_loop lay pageBounds rest' (c + 1) last
  end.

(** [#getNextNonvisibleChildIndex()] *)
Definition getNextNonvisibleChildIndex (st : SelectionElement) (lay : Layout)
    : option Z :=
  let selectedIndex := selectedIndex st in
  if selectedIndex =? -1 then Some (-1)
  else
    let containerBounds := getBoundingClientRect lay (this st) in
    selection ← item (children st) selectedIndex;
    let selectionBounds := getBoundingClientRect lay selection in
    let pageBounds :=
      translate containerBounds
        (PrimFloat.sub (Rect.left selectionBounds)
                       (Rect.left containerBounds))
        (PrimFloat.sub (Rect.top selectionBounds)
                       (Rect.top containerBounds)) in
    Some (getNextNonvisibleChildIndex_loop lay pageBounds
            (drop (Z.to_nat (selectedIndex + 1)) (children st))
            (selectedIndex + 1) (length_ st - 1)).

(** [for (let c = selectedIndex - 1; c >= 0; c--)]: [before] holds the
    children at indices [c], [c - 1], ..., [0], in that order. *)
Fixpoint getPreviousNonvisibleChildIndex_loop (lay : Layout)
    (pageBounds : DOMRect) (before : list node) (c : Z) : Z :=
  match before with
  | [] => 0
  | child :: before' =>
      let bounds := getBoundingClientRect lay child in
      if negb (rectContains pageBounds bounds) then c
      else getPreviousNonvisibleChildIndex_loop lay pageBounds before' (c - 1)
  end.

(** [#getPreviousNonvisibleChildIndex()] *)
Definition getPreviousNonvisibleChildIndex (st : SelectionElement)
    (lay : Layout) : option Z :=
  let selectedIndex := selectedIndex st in
  if selectedIndex =? -1 then Some (-1)
  else
    let containerBounds := getBoundingClientRect lay (this st) in
    selection ← item (children st) selectedIndex;
    let selectionBounds := getBoundingClientRect lay selection in
    let pageBounds :=
      translateBack containerBounds
        (PrimFloat.sub (Rect.right containerBounds)
                       (Rect.right selectionBounds))
        (PrimFloat.sub (Rect.bottom containerBounds)
                       (Rect.bottom selectionBounds)) in
    Some (getPreviousNonvisibleChildIndex_loop lay pageBounds
            (reverse (take (Z.to_nat selectedIndex) (children st)))
            (selectedIndex - 1)).

(** ** Keyboard *)

Module KeyboardEvent.
Record t := { key : string; defaultPrevented : bool }.
Definition preventDefault (event : t) : t :=
  {| key := key event; defaultPrevented := true |}.
End KeyboardEvent.

(** The first half of [keyHandler]: the value of [newSelectionIndex] when the
    chain of key tests is left.  The outer [option] is the [TypeError] of the
    page scans, the inner one is [None] for a key the handler does not claim
    (the bare [return]). *)
Definition newSelectionIndex (st : SelectionElement) (lay : Layout)
    (key : string) : option (option Z) :=
  let newSelectionIndex := selectedIndex st in
  if String.eqb key "Home" then Some (Some 0)
  else if String.eqb key "End" then Some (Some (length_ st - 1))
  else if String.eqb key "PageUp" then
    index ← getPreviousNonvisibleChildIndex st lay;
    Some (Some (if index >? -1 then index else newSelectionIndex))
  else if String.eqb key "PageDown" then
    index ← getNextNonvisibleChildIndex st lay;
    Some (Some (if index >? -1 then index else newSelectionIndex))
  else if String.eqb key "ArrowRight" || String.eqb key "ArrowDown" then
    Some (Some (if newSelectionIndex <? length_ st - 1
                then newSelectionIndex + 1 else newSelectionIndex))
  else if String.eqb key "ArrowLeft" || String.eqb key "ArrowUp" then
    Some (Some (if newSelectionIndex >? 0
                then newSelectionIndex - 1 else newSelectionIndex))
  else Some None.

(** [keyHandler(event)], the [keydown] listener installed by
    [#handleFocusIn]. *)
Definition keyHandler (st : SelectionElement) (lay : Layout)
    (event : KeyboardEvent.t) : option (SelectionElement * KeyboardEvent.t) :=
  target ← newSelectionIndex st lay (KeyboardEvent.key event);
  match target with
  | None => Some (st, event)
  | Some newSelectionIndex =>
      let event := KeyboardEvent.preventDefault event in
      if decide (newSelectionIndex ≠ selectedIndex st) then
        let st := set_selectedIndex st newSelectionIndex in
        let st := scrollSelectionIntoView st in
        let st := notifySelectionChange st in
        Some (st, event)
      else Some (st, event)
  end.

(** ** Pointer *)

Module PointerEvent.
Record t := { target : node; shiftKey : bool; defaultPrevented : bool }.
End PointerEvent.

(** [if (target.parentElement !== this) target = target.parentElement]; the
    result is [None] when that parent is [null]. *)
Definition retarget (st : SelectionElement) (target : node) : option node :=
  if decide (parentElement st !! target ≠ Some (this st))
  then parentElement st !! target
  else Some target.

(** [#handlePointerDown(event)].  The value it returns ([false] or nothing) is
    dropped by the listener machinery and is not modelled. *)
Definition handlePointerDown (st : SelectionElement) (event : PointerEvent.t)
    : option SelectionElement :=
  let target := PointerEvent.target event in
  let shiftKey := PointerEvent.shiftKey event in
  if decide (target = this st) then Some st
  else
    let target := retarget st target in
    if PointerEvent.defaultPrevented event then Some st
    else
      target ← target;
      if allowMultipeSelections st && shiftKey then
        if isSelected st target then
          Some (notifySelectionChange (removeFromSelection st target))
        else
          Some (notifySelectionChange (addToSelection st target))
      else
        if isSelected st target then Some st
        else
          Some (notifySelectionChange
                  (addToSelection (clearSelection st) target)).

(** ** Operations of the host page and of the user *)

(** What a script or a user can do to the control while the mode is fixed:
    assign one of the two properties, press a key while the control has
    focus, press a pointer button over it. *)
Inductive Operation :=
  | SetSelectedIndex (value : Z)
  | SetSelectedChild (element : option node)
  | KeyDown (event : KeyboardEvent.t) (lay : Layout)
  | PointerDown (event : PointerEvent.t).

(** One operation.  [None]: the listener raised a [TypeError]. *)
Definition exec (st : SelectionElement) (op : Operation)
    : option SelectionElement :=
  match op with
  | SetSelectedIndex value => Some (set_selectedIndex st value)
  | SetSelectedChild element => Some (set_selectedChild st element)
  | KeyDown event lay => fst <$> keyHandler st lay event
  | PointerDown event => handlePointerDown st event
  end.

(** An exception raised in a listener is reported to the page and the
    element stays as it was when the exception was raised; both listeners
    raise before they write anything. *)
Definition step (st : SelectionElement) (op : Operation) : SelectionElement :=
  default st (exec st op).

(** The states after each operation of a sequence. *)
Fixpoint run (st : SelectionElement) (ops : list Operation)
    : list SelectionElement :=
  match ops with
  | [] => []
  | op :: ops' => let st' := step st op in st' :: run st' ops'
  end.

(** ** Predicates of the specification *)

(** The names of the events dispatched so far, oldest first. *)
Definition dispatched (st : SelectionElement) : list string :=
  omap (λ e, match e with DispatchEvent type => Some type | _ => None end)
       (effects st).

(** The tree around the control is consistent: the children are distinct
    elements, they are exactly the elements whose parent is the host, and the
    host is not its own child. *)
Definition wf (st : SelectionElement) : Prop :=
  NoDup (children st) ∧
  Forall (λ child, parentElement st !! child = Some (this st)) (children st) ∧
  map_Forall (λ el parent, parent = this st → el ∈ children st)
             (parentElement st) ∧
  this st ∉ children st.

#[global] Instance wf_dec st : Decision (wf st).
Proof. unfold wf. apply _. Defined.

(** At most one child carries the selection marker. *)
Definition atMostOneSelected (st : SelectionElement) : Prop :=
  (length (selectedChildren st) ≤ 1)%nat.

(** Two states differ at most in selection markers (and in what has been
    dispatched): same host, same children in the same order, same tree, same
    value for every attribute other than the marker on every element. *)
Definition onlyMarkersChanged (st st' : SelectionElement) : Prop :=
  this st' = this st ∧
  children st' = children st ∧
  parentElement st' = parentElement st ∧
  ∀ (el : node) (name : string),
    name ≠ selectedAttributeName →
    attributes st' !! (el, name) = attributes st !! (el, name).

(** The containment test of the specification: [b] lies in [a] when
    [b.left >= a.left], [b.right <= a.right], [b.top >= a.top] and
    [b.bottom <= a.bottom], the four bounds inclusive, compared as doubles
    are. *)
Definition contained (a b : DOMRect) : Prop :=
  PrimFloat.leb (Rect.left a) (Rect.left b) = true ∧
  PrimFloat.leb (Rect.right b) (Rect.right a) = true ∧
  PrimFloat.leb (Rect.top a) (Rect.top b) = true ∧
  PrimFloat.leb (Rect.bottom b) (Rect.bottom a) = true.

(** [b] lies in the rectangle [container] shifted forward by [(dx, dy)]:
    the rectangle of the same width and height whose origin is
    [(x + dx, y + dy)]. *)
Definition containedInShifted (container : DOMRect) (dx dy : float)
    (b : DOMRect) : Prop :=
  contained
    {| Rect.x := PrimFloat.add (Rect.x container) dx;
       Rect.y := PrimFloat.add (Rect.y container) dy;
       Rect.width := Rect.width container;
       Rect.height := Rect.height container |} b.

(** [b] lies in the rectangle [container] shifted backward by [(dx, dy)]:
    the rectangle of the same width and height whose origin is
    [(x - dx, y - dy)]. *)
Definition containedInShiftedBack (container : DOMRect) (dx dy : float)
    (b : DOMRect) : Prop :=
  contained
    {| Rect.x := PrimFloat.sub (Rect.x container) dx;
       Rect.y := PrimFloat.sub (Rect.y container) dy;
       Rect.width := Rect.width container;
       Rect.height := Rect.height container |} b.

(** [r] is where a scan of the children after index [i], in increasing
    order, stops: at the first child that fails [inside], or at the last
    index when every later child passes. *)
Definition firstOutsideAfter (st : SelectionElement) (lay : Layout)
    (inside : DOMRect → Prop) (i : nat) (r : Z) : Prop :=
  (∃ (c : nat) child,
     r = Z.of_nat c ∧ (i < c)%nat ∧ children st !! c = Some child ∧
     ¬ inside (getBoundingClientRect lay child) ∧
     ∀ (j : nat) child', (i < j < c)%nat → children st !! j = Some child' →
                         inside (getBoundingClientRect lay child'))
  ∨ (r = length_ st - 1 ∧
     ∀ (j : nat) child', (i < j)%nat → children st !! j = Some child' →
                         inside (getBoundingClientRect lay child')).

(** The same towards index 0, in decreasing order. *)
Definition firstOutsideBefore (st : SelectionElement) (lay : Layout)
    (inside : DOMRect → Prop) (i : nat) (r : Z) : Prop :=
  (∃ (c : nat) child,
     r = Z.of_nat c ∧ (c < i)%nat ∧ children st !! c = Some child ∧
     ¬ inside (getBoundingClientRect lay child) ∧
     ∀ (j : nat) child', (c < j < i)%nat → children st !! j = Some child' →
                         inside (getBoundingClientRect lay child'))
  ∨ (r = 0 ∧
     ∀ (j : nat) child', (j < i)%nat → children st !! j = Some child' →
                         inside (getBoundingClientRect lay child')).

(** The nearest ancestor of [el] (or [el] itself) that is a child of the
    control, in the words of the specification; [depth] bounds the number of
    [parentElement] steps. *)
Fixpoint directChildAncestor (st : SelectionElement) (depth : nat)
    (el : node) : option node :=
  match depth with
  | O => None
  | S depth' =>
      parent ← parentElement st !! el;
      if decide (parent = this st) then Some el
      else directChildAncestor st depth' parent
  end.

(** Committing a new index: [this.selectedIndex = n], scroll, notify. *)
Definition commit (st : SelectionElement) (n : Z) : SelectionElement :=
  notifySelectionChange (scrollSelectionIntoView (set_selectedIndex st n)).

(** The keys that [keyHandler] tests for. *)
Definition claimedKeys : list string :=
  ["Home"; "End"; "PageUp"; "PageDown";
   "ArrowRight"; "ArrowDown"; "ArrowLeft"; "ArrowUp"]%string.

(** ** Operations, the change of an attribute included *)

Inductive Action :=
  | Perform (op : Operation)
  | AttributeChanged (attr : string) (oldValue newValue : option string).

(** One action; as for [step], a callback that raises leaves the state as it
    was. *)
Definition act (st : SelectionElement) (a : Action) : SelectionElement :=
  match a with
  | Perform op => step st op
  | AttributeChanged attr oldValue newValue =>
      default st (attributeChangedCallback st attr oldValue newValue)
  end.

(** The states after each action of a sequence. *)
Fixpoint runActions (st : SelectionElement) (actions : list Action)
    : list SelectionElement :=
  match actions with
  | [] => []
  | a :: actions' => let st' := act st a in st' :: runActions st' actions'
  end.

(** ** Listeners *)

(** The listeners the element registers: on itself [#focusInHandler] and
    [#pointerDownHandler] (one bound function each, made by the constructor)
    and the one-shot [focusout] arrows of [#handleFocusIn]; on the document
    the [keyHandler] closures.  Each call of [#handleFocusIn] makes a new
    [keyHandler] closure, named here by a number, and a new arrow that
    removes that closure. *)
Module Listeners.

Inductive HostListener :=
  | FocusInHandler
  | PointerDownHandler
  | FocusOutOnce (keyHandler : nat).

#[global] Instance HostListener_eq_dec : EqDecision HostListener.
Proof. solve_decision. Defined.

Record t := {
  element : list HostListener;
  document : list nat;
  closures : nat
}.

(** [target.addEventListener(type, callback)]: a callback already
    registered for the type is not registered again. *)
Definition addEventListener {A} `{EqDecision A} (l : list A) (callback : A)
    : list A :=
  if decide (callback ∈ l) then l else l ++ [callback].

(** [target.removeEventListener(type, callback)] *)
Definition removeEventListener {A} `{EqDecision A} (l : list A) (callback : A)
    : list A :=
  filter (λ c, c ≠ callback) l.

(** A new element: the constructor registers nothing. *)
Definition initial : t := {| element := []; document := []; closures := 0 |}.

(** [connectedCallback()] *)
Definition connectedCallback (r : t) : t :=
  {| element :=
       addEventListener (addEventListener (element r) FocusInHandler)
                        PointerDownHandler;
     document := document r; closures := closures r |}.

(** [disconnectedCallback()] *)
Definition disconnectedCallback (r : t) : t :=
  {| element :=
       removeEventListener (removeEventListener (element r) FocusInHandler)
                           PointerDownHandler;
     document := document r; closures := closures r |}.

(** [#handleFocusIn()] *)
Definition handleFocusIn (r : t) : t :=
  let keyHandler := closures r in
  {| element := addEventListener (element r) (FocusOutOnce keyHandler);
     document := addEventListener (document r) keyHandler;
     closures := S (closures r) |}.

(** The closures that the one-shot [focusout] arrows of a listener list
    remove, in registration order. *)
Definition pending (l : list HostListener) : list nat :=
  omap (λ h, match h with FocusOutOnce k => Some k | _ => None end) l.

(** What reaches the element. *)
Inductive Event := Connected | Disconnected | FocusIn | FocusOut.

(** A [focusin] event runs [#focusInHandler] when it is registered; a
    [focusout] event runs every one-shot arrow, each removing its closure
    from the document, and unregisters them. *)
Definition deliver (r : t) (ev : Event) : t :=
  match ev with
  | Connected => connectedCallback r
  | Disconnected => disconnectedCallback r
  | FocusIn =>
      if decide (FocusInHandler ∈ element r) then handleFocusIn r else r
  | FocusOut =>
      {| element := filter (λ h, pending [h] = []) (element r);
         document := foldl removeEventListener (document r)
                           (pending (element r));
         closures := closures r |}
  end.

(** The registry of a reachable state: the closures on the document are
    those that a one-shot arrow is waiting to remove, nothing is registered
    twice, and every closure made so far has a number below [closures]. *)
Definition consistent (r : t) : Prop :=
  document r = pending (element r) ∧
  NoDup (element r) ∧ NoDup (document r) ∧
  Forall (λ k, (k < closures r)%nat) (document r).

End Listeners.

(** ** Concrete controls *)

Module Examples.

(** A control whose host is [host], with the given children, the marker on
    the elements of [selected], and further elements [nested], each with its
    parent. *)
Definition control (host : node) (kids : list node) (selected : list node)
    (nested : list (node * node)) (multiple : bool) : SelectionElement :=
  {| this := host;
     children := kids;
     parentElement := list_to_map (((λ kid, (kid, host)) <$> kids) ++ nested);
     attributes :=
       list_to_map
         ((λ el, ((el, selectedAttributeName), EmptyString)) <$> selected);
     allowMultipeSelections := multiple;
     effects := [] |}.

(** The page of the geometry example: a container with visible region
    [0,0]-[100,100], a selected item at [10,10]-[20,20] followed by items at
    [30,30]-[40,40] and [150,150]-[160,160]. *)
Definition page : SelectionElement := control 0 [1; 2; 3]%nat [1%nat] [] false.

Definition pageLayout : Layout :=
  {| getBoundingClientRect := λ el,
       match el with
       | 0%nat => Rect.ofEdges 0 0 100 100
       | 1%nat => Rect.ofEdges 10 10 20 20
       | 2%nat => Rect.ofEdges 30 30 40 40
       | _ => Rect.ofEdges 150 150 160 160
       end |}.

(** A layout with fractional coordinates: a container at [y = 0.3] and a
    row of three items at [y = 0.9].  The decimal literals stand for the
    nearest doubles, as they do in JavaScript. *)
#[local] Set Warnings "-inexact-float".
Definition fractionalLayout : Layout :=
  {| getBoundingClientRect := λ el,
       match el with
       | 0%nat => {| Rect.x := 0; Rect.y := 0.3;
                     Rect.width := 100; Rect.height := 50 |}
       | 1%nat => {| Rect.x := 0; Rect.y := 0.9;
                     Rect.width := 10; Rect.height := 10 |}
       | 2%nat => {| Rect.x := 10; Rect.y := 0.9;
                     Rect.width := 10; Rect.height := 10 |}
       | _ => {| Rect.x := 20; Rect.y := 0.9;
                 Rect.width := 10; Rect.height := 10 |}
       end |}.
#[local] Set Warnings "inexact-float".

(** Five items, those at indices 1, 3 and 4 selected, in multi-selection
    mode. *)
Definition gallery : SelectionElement :=
  control 0 [1; 2; 3; 4; 5]%nat [2; 4; 5]%nat [] true.

(** Three items, none selected, single-selection mode; the first item holds
    a [span] (element 4) that holds a [b] (element 5). *)
Definition list3 : SelectionElement :=
  control 0 [1; 2; 3]%nat [] [(4, 1); (5, 4)]%nat false.

(** The same with the second item selected. *)
Definition list3_second : SelectionElement :=
  control 0 [1; 2; 3]%nat [2%nat] [(4, 1); (5, 4)]%nat false.

(** The same with the last item selected. *)
Definition list3_last : SelectionElement :=
  control 0 [1; 2; 3]%nat [3%nat] [(4, 1); (5, 4)]%nat false.

(** A control without children. *)
Definition empty : SelectionElement := control 0 [] [] [] false.

(** Every element at the origin, one pixel wide and high. *)
Definition flat : Layout :=
  {| getBoundingClientRect := λ _, Rect.ofEdges 0 0 1 1 |}.

Definition keydown (key : string) : KeyboardEvent.t :=
  {| KeyboardEvent.key := key; KeyboardEvent.defaultPrevented := false |}.

Definition press (target : node) (shiftKey : bool) : PointerEvent.t :=
  {| PointerEvent.target := target; PointerEvent.shiftKey := shiftKey;
     PointerEvent.defaultPrevented := false |}.

End Examples.

(** * Properties *)

(** ** The selection store *)

Section store.
Implicit Types (st : SelectionElement) (el child : node) (name : string).

Lemma isSelected_addToSelection st el n :
  isSelected (addToSelection st el) n
  = if decide (n = el) then true else isSelected st n.
Proof.
  unfold isSelected, addToSelection; simpl.
  destruct (decide (n = el)) as [->|Hne].
  - rewrite lookup_insert_eq. apply bool_decide_eq_true. eauto.
  - rewrite lookup_insert_ne; [done|]. intros [=]. done.
Qed.

Lemma isSelected_removeFromSelection st el n :
  isSelected (removeFromSelection st el) n
  = if decide (n = el) then false else isSelected st n.
Proof.
  unfold isSelected, removeFromSelection; simpl.
  destruct (decide (n = el)) as [->|Hne].
  - rewrite lookup_delete_eq. apply bool_decide_eq_false. by intros [? ?].
  - rewrite lookup_delete_ne; [done|]. intros [=]. done.
Qed.

(** Removing the marker from a list of elements, one after the other. *)
Lemma isSelected_foldl_remove (l : list node) st n :
  isSelected (foldl removeFromSelection st l) n
  = if decide (n ∈ l) then false else isSelected st n.
Proof.
  revert st. induction l as [|e l IH]; intros st; simpl.
  - destruct (decide (n ∈ [])) as [H|H]; [by apply elem_of_nil in H|done].
  - rewrite IH, isSelected_removeFromSelection.
    destruct (decide (n ∈ e :: l)) as [Hin|Hin].
    + apply elem_of_cons in Hin.
      destruct (decide (n ∈ l)); [done|]. destruct (decide (n = e)); tauto.
    + rewrite not_elem_of_cons in Hin. destruct Hin as [Hne Hnl].
      by rewrite decide_False, decide_False.
Qed.

Lemma onlyMarkersChanged_refl st : onlyMarkersChanged st st.
Proof. by repeat split. Qed.

Lemma onlyMarkersChanged_trans st1 st2 st3 :
  onlyMarkersChanged st1 st2 → onlyMarkersChanged st2 st3 →
  onlyMarkersChanged st1 st3.
Proof.
  intros (Ha & Hb & Hc & Hd) (Ha' & Hb' & Hc' & Hd').
  repeat split; try congruence.
  intros el name Hn. by rewrite Hd', Hd.
Qed.

Lemma onlyMarkersChanged_add st el :
  onlyMarkersChanged st (addToSelection st el).
Proof.
  repeat split. intros n name Hn. simpl.
  rewrite lookup_insert_ne; [done|]. intros [=]. done.
Qed.

Lemma onlyMarkersChanged_remove st el :
  onlyMarkersChanged st (removeFromSelection st el).
Proof.
  repeat split. intros n name Hn. simpl.
  rewrite lookup_delete_ne; [done|]. intros [=]. done.
Qed.

Lemma onlyMarkersChanged_perform st es : onlyMarkersChanged st (perform st es).
Proof. by repeat split. Qed.

Lemma onlyMarkersChanged_foldl_remove (l : list node) st :
  onlyMarkersChanged st (foldl removeFromSelection st l).
Proof.
  revert st. induction l as [|e l IH]; intros st; simpl.
  - apply onlyMarkersChanged_refl.
  - eapply onlyMarkersChanged_trans; [apply onlyMarkersChanged_remove|apply IH].
Qed.

Lemma effects_foldl_remove (l : list node) st :
  effects (foldl removeFromSelection st l) = effects st ∧
  allowMultipeSelections (foldl removeFromSelection st l)
  = allowMultipeSelections st.
Proof.
  revert st. induction l as [|e l IH]; intros st; simpl; [done|].
  by rewrite !(proj1 (IH _)), !(proj2 (IH _)).
Qed.

Lemma elem_of_selectedChildren st el :
  el ∈ selectedChildren st ↔ isSelected st el = true ∧ el ∈ children st.
Proof.
  unfold selectedChildren. rewrite list_elem_of_filter.
  by rewrite Is_true_true.
Qed.

(** [#clearSelection] *)

Lemma onlyMarkersChanged_clear st : onlyMarkersChanged st (clearSelection st).
Proof. apply onlyMarkersChanged_foldl_remove. Qed.

Lemma children_clearSelection st : children (clearSelection st) = children st.
Proof. apply onlyMarkersChanged_clear. Qed.

Lemma effects_clearSelection st : effects (clearSelection st) = effects st.
Proof. apply effects_foldl_remove. Qed.

Lemma allowMultipeSelections_clearSelection st :
  allowMultipeSelections (clearSelection st) = allowMultipeSelections st.
Proof. apply effects_foldl_remove. Qed.

Lemma isSelected_clearSelection st el :
  isSelected (clearSelection st) el
  = isSelected st el && bool_decide (el ∉ children st).
Proof.
  unfold clearSelection. rewrite isSelected_foldl_remove.
  case_decide as H; rewrite elem_of_selectedChildren in H.
  - destruct H as [-> H]. simpl. symmetry. apply bool_decide_eq_false. tauto.
  - destruct (isSelected st el); simpl; [|done].
    symmetry. apply bool_decide_eq_true. tauto.
Qed.

Lemma isSelected_clearSelection_child st child :
  child ∈ children st → isSelected (clearSelection st) child = false.
Proof.
  intros H. rewrite isSelected_clearSelection.
  rewrite (bool_decide_eq_false_2 (child ∉ children st)); [|tauto].
  apply andb_false_r.
Qed.

Lemma selectedChildren_nil st :
  selectedChildren st = [] ↔
  ∀ child, child ∈ children st → isSelected st child = false.
Proof.
  split.
  - intros H child Hc. destruct (isSelected st child) eqn:E; [|done].
    assert (child ∈ selectedChildren st) as Hin
      by (by apply elem_of_selectedChildren).
    rewrite H in Hin. by apply elem_of_nil in Hin.
  - intros H. destruct (selectedChildren st) as [|c l] eqn:E; [done|].
    assert (c ∈ selectedChildren st) as Hin by (rewrite E; left).
    apply elem_of_selectedChildren in Hin as [Hs Hc]. rewrite H in Hs; done.
Qed.

Lemma selectedChildren_clearSelection st :
  selectedChildren (clearSelection st) = [].
Proof.
  apply selectedChildren_nil. intros child Hc.
  rewrite children_clearSelection in Hc.
  by apply isSelected_clearSelection_child.
Qed.

End store.

(** ** The [selectedIndex] getter *)

Section index.
Implicit Types (st : SelectionElement) (el child : node).

Lemma selectedIndex_loop_cases st rest index :
  (selectedIndex_loop st rest index = -1 ∧
   Forall (λ child, isSelected st child = false) rest) ∨
  (∃ (k : nat) child,
     selectedIndex_loop st rest index = index + Z.of_nat k ∧
     rest !! k = Some child ∧ isSelected st child = true ∧
     Forall (λ child, isSelected st child = false) (take k rest)).
Proof.
  revert index. induction rest as [|c rest IH]; intros index; simpl.
  - left. by split.
  - destruct (isSelected st c) eqn:E.
    + right. exists 0%nat, c. rewrite Z.add_0_r. by repeat split.
    + destruct (IH (index + 1)) as [[-> Hall]|(k & child & -> & Hk & Hs & Hall)].
      * left. split; [done|]. by constructor.
      * right. exists (S k), child. repeat split; [lia|done|done|].
        simpl. by constructor.
Qed.

(** The getter reads nothing but the markers of the children. *)
Lemma selectedIndex_loop_ext st st' rest index :
  (∀ child, child ∈ rest → isSelected st child = isSelected st' child) →
  selectedIndex_loop st rest index = selectedIndex_loop st' rest index.
Proof.
  revert index. induction rest as [|c rest IH]; intros index H; simpl; [done|].
  rewrite <- (H c) by left. destruct (isSelected st c); [done|].
  apply IH. intros child Hc. apply H. by right.
Qed.

Lemma selectedIndex_ext st st' :
  children st' = children st →
  (∀ child, child ∈ children st → isSelected st child = isSelected st' child) →
  selectedIndex st = selectedIndex st'.
Proof.
  intros Hc H. unfold selectedIndex. rewrite Hc.
  by apply selectedIndex_loop_ext.
Qed.

Lemma selectedIndex_perform st es :
  selectedIndex (perform st es) = selectedIndex st.
Proof. symmetry. by apply selectedIndex_ext. Qed.

(** The getter returns -1 or the index of a child. *)
Lemma selectedIndex_range st : -1 ≤ selectedIndex st < length_ st.
Proof.
  unfold selectedIndex, length_.
  destruct (selectedIndex_loop_cases st (children st) 0)
    as [[-> _]|(k & child & -> & Hk & _)]; [lia|].
  apply lookup_lt_Some in Hk. lia.
Qed.

Lemma selectedIndex_none st :
  selectedIndex st = -1 ↔ selectedChildren st = [].
Proof.
  rewrite selectedChildren_nil. unfold selectedIndex.
  destruct (selectedIndex_loop_cases st (children st) 0)
    as [[-> Hall]|(k & child & -> & Hk & Hs & _)].
  - split; [|done]. intros _ child Hc.
    by eapply (proj1 (Forall_forall _ _) Hall).
  - split; [lia|]. intros H. apply list_elem_of_lookup_2 in Hk.
    rewrite (H _ Hk) in Hs. done.
Qed.

(** When it is not -1, it is the lowest index of a selected child. *)
Lemma selectedIndex_lowest st :
  selectedIndex st ≠ -1 →
  ∃ (i : nat) child,
    selectedIndex st = Z.of_nat i ∧ children st !! i = Some child ∧
    isSelected st child = true ∧
    ∀ (j : nat) c, (j < i)%nat → children st !! j = Some c →
                   isSelected st c = false.
Proof.
  unfold selectedIndex. intros Hne.
  destruct (selectedIndex_loop_cases st (children st) 0)
    as [[E _]|(k & child & E & Hk & Hs & Hall)]; [done|].
  exists k, child. repeat split; [lia|done|done|].
  intros j c Hj Hc. eapply (proj1 (Forall_lookup _ _) Hall j).
  by rewrite lookup_take_lt.
Qed.

Lemma selectedIndex_item st :
  selectedIndex st ≠ -1 →
  ∃ child, item (children st) (selectedIndex st) = Some child ∧
           isSelected st child = true ∧ child ∈ children st.
Proof.
  intros (i & child & -> & Hi & Hs & _)%selectedIndex_lowest.
  exists child. unfold item.
  rewrite (proj2 (Z.ltb_ge _ _)) by lia. rewrite Nat2Z.id.
  repeat split; [done..|]. by eapply list_elem_of_lookup_2.
Qed.

Lemma item_Some (l : list node) (i : Z) child :
  item l i = Some child ↔ 0 ≤ i ∧ l !! Z.to_nat i = Some child.
Proof.
  unfold item. destruct (Z.ltb_spec i 0) as [Hlt|Hge].
  - split; [done|]. intros [? _]. lia.
  - split; [by split|]. by intros [_ ?].
Qed.

Lemma item_is_Some (l : list node) (i : Z) :
  0 ≤ i < Z.of_nat (length l) → is_Some (item l i).
Proof.
  intros H. unfold item. rewrite (proj2 (Z.ltb_ge _ _)) by lia.
  apply lookup_lt_is_Some. lia.
Qed.

Lemma filter_none (P : node → Prop) `{∀ x, Decision (P x)} (l : list node) :
  (∀ x, x ∈ l → ¬ P x) → filter P l = [].
Proof.
  induction l as [|a l IH]; intros HP; [done|].
  rewrite filter_cons, decide_False by (apply HP; left).
  apply IH. intros x Hx. apply HP. by right.
Qed.

(** A list without duplicates filtered by "is [c]". *)
Lemma filter_only (P : node → Prop) `{∀ x, Decision (P x)}
    (l : list node) (c : node) :
  NoDup l → c ∈ l → (∀ x, x ∈ l → P x ↔ x = c) → filter P l = [c].
Proof.
  induction l as [|a l IH]; intros Hnd Hin HP.
  - by apply elem_of_nil in Hin.
  - apply NoDup_cons in Hnd as [Ha Hnd]. rewrite filter_cons.
    destruct (decide (a = c)) as [->|Hne].
    + rewrite decide_True by (apply HP; [left|done]).
      f_equal. apply filter_none. intros x Hx HPx.
      apply HP in HPx; [|by right]. by subst.
    + rewrite decide_False by (intros HPa; apply HP in HPa; [done|left]).
      apply IH; [done| |].
      * apply elem_of_cons in Hin as [?|?]; [by subst|done].
      * intros x Hx. apply HP. by right.
Qed.

End index.

(** ** Exclusive selection: clear, then mark one element *)

Section exclusive.
Implicit Types (st : SelectionElement) (el child : node).

Lemma isSelected_exclusive st el n :
  isSelected (addToSelection (clearSelection st) el) n
  = if decide (n = el) then true
    else isSelected st n && bool_decide (n ∉ children st).
Proof. by rewrite isSelected_addToSelection, isSelected_clearSelection. Qed.

Lemma children_exclusive st el :
  children (addToSelection (clearSelection st) el) = children st.
Proof. simpl. apply children_clearSelection. Qed.

Lemma selectedChildren_exclusive st child :
  NoDup (children st) → child ∈ children st →
  selectedChildren (addToSelection (clearSelection st) child) = [child].
Proof.
  intros Hnd Hin. unfold selectedChildren. rewrite children_exclusive.
  apply filter_only; [done..|].
  intros x Hx. rewrite Is_true_true, isSelected_exclusive.
  destruct (decide (x = child)) as [->|Hne]; [done|].
  rewrite (bool_decide_eq_false_2 (x ∉ children st)) by tauto.
  rewrite andb_false_r. split; [done|tauto].
Qed.

Lemma selectedChildren_exclusive_outside st el :
  el ∉ children st →
  selectedChildren (addToSelection (clearSelection st) el) = [].
Proof.
  intros Hout. apply selectedChildren_nil. intros child Hc.
  rewrite children_exclusive in Hc. rewrite isSelected_exclusive.
  rewrite decide_False by (intros ->; done).
  rewrite (bool_decide_eq_false_2 (child ∉ children st)) by tauto.
  apply andb_false_r.
Qed.

Lemma selectedIndex_exclusive st child (i : nat) :
  NoDup (children st) → children st !! i = Some child →
  selectedIndex (addToSelection (clearSelection st) child) = Z.of_nat i.
Proof.
  intros Hnd Hi.
  set (st' := addToSelection (clearSelection st) child).
  assert (child ∈ children st) as Hin by (by eapply list_elem_of_lookup_2).
  assert (selectedIndex st' ≠ -1) as Hne.
  { rewrite selectedIndex_none. unfold st'.
    by rewrite selectedChildren_exclusive. }
  destruct (selectedIndex_lowest st' Hne) as (k & c & -> & Hk & Hs & _).
  unfold st' in Hk, Hs. rewrite children_exclusive in Hk.
  assert (c ∈ selectedChildren st') as Hc.
  { apply elem_of_selectedChildren. split; [done|]. unfold st'.
    rewrite children_exclusive. by eapply list_elem_of_lookup_2. }
  unfold st' in Hc. rewrite selectedChildren_exclusive in Hc by done.
  apply list_elem_of_singleton in Hc as ->.
  f_equal. by eapply NoDup_lookup.
Qed.

(** The two setters, reduced to the store operations. *)

Lemma set_selectedIndex_inside st value child :
  item (children st) value = Some child →
  set_selectedIndex st value = addToSelection (clearSelection st) child.
Proof.
  intros H. unfold set_selectedIndex, length_.
  rewrite children_clearSelection, H.
  apply item_Some in H as [H0 Hl]. apply lookup_lt_Some in Hl.
  rewrite (proj2 (Z.leb_le _ _)), (proj2 (Z.ltb_lt _ _)) by lia. done.
Qed.

Lemma set_selectedIndex_outside st value :
  ¬ (0 ≤ value < length_ st) →
  set_selectedIndex st value = clearSelection st.
Proof.
  intros H. unfold set_selectedIndex, length_ in *.
  rewrite children_clearSelection.
  destruct (Z.leb_spec 0 value),
    (Z.ltb_spec value (Z.of_nat (length (children st))));
    simpl; try done. lia.
Qed.

Lemma set_selectedChild_loop_inside st rest child :
  child ∈ rest →
  set_selectedChild_loop st rest (Some child) = addToSelection st child.
Proof.
  induction rest as [|c rest IH]; intros Hin; simpl.
  - by apply elem_of_nil in Hin.
  - destruct (decide (Some c = Some child)) as [[= ->]|Hne]; [done|].
    apply IH. apply elem_of_cons in Hin as [->|?]; done.
Qed.

Lemma set_selectedChild_loop_outside st rest element :
  (∀ child, element = Some child → child ∉ rest) →
  set_selectedChild_loop st rest element = st.
Proof.
  induction rest as [|c rest IH]; intros Hout; simpl; [done|].
  destruct (decide (Some c = element)) as [<-|Hne].
  - exfalso. apply (Hout c eq_refl). left.
  - apply IH. intros child E Hin. apply (Hout child E). by right.
Qed.

Lemma set_selectedChild_inside st child :
  child ∈ children st →
  set_selectedChild st (Some child)
  = addToSelection (clearSelection st) child.
Proof.
  intros H. unfold set_selectedChild.
  apply set_selectedChild_loop_inside. by rewrite children_clearSelection.
Qed.

Lemma set_selectedChild_outside st element :
  (∀ child, element = Some child → child ∉ children st) →
  set_selectedChild st element = clearSelection st.
Proof.
  intros H. unfold set_selectedChild.
  apply set_selectedChild_loop_outside. by rewrite children_clearSelection.
Qed.

End exclusive.

(** ** Page boundaries *)

Section geometry.

Lemma rectContains_contained (a b : DOMRect) :
  rectContains a b = true ↔ contained a b.
Proof.
  unfold rectContains, contained. rewrite !andb_true_iff. tauto.
Qed.

Lemma rectContains_translate (container b : DOMRect) (dx dy : float) :
  rectContains (translate container dx dy) b = true ↔
  containedInShifted container dx dy b.
Proof. apply rectContains_contained. Qed.

Lemma rectContains_translateBack (container b : DOMRect) (dx dy : float) :
  rectContains (translateBack container dx dy) b = true ↔
  containedInShiftedBack container dx dy b.
Proof. apply rectContains_contained. Qed.

Lemma getNextNonvisibleChildIndex_loop_cases (lay : Layout) (page : DOMRect)
    (rest : list node) (c last : Z) :
  (∃ (k : nat) child,
     getNextNonvisibleChildIndex_loop lay page rest c last = c + Z.of_nat k ∧
     rest !! k = Some child ∧
     rectContains page (getBoundingClientRect lay child) = false ∧
     ∀ (j : nat) child', (j < k)%nat → rest !! j = Some child' →
       rectContains page (getBoundingClientRect lay child') = true)
  ∨ (getNextNonvisibleChildIndex_loop lay page rest c last = last ∧
     ∀ (j : nat) child', rest !! j = Some child' →
       rectContains page (getBoundingClientRect lay child') = true).
Proof.
  revert c. induction rest as [|e rest IH]; intros c; simpl.
  - right. split; [done|]. intros j child' H. done.
  - destruct (rectContains page (getBoundingClientRect lay e)) eqn:E; simpl.
    + destruct (IH (c + 1)) as [(k & child & -> & Hk & Hout & Hin)|[-> Hin]].
      * left. exists (S k), child. repeat split; [lia|done|done|].
        intros [|j] child' Hj Hl; simpl in Hl; [by simplify_eq|].
        apply (Hin j); [lia|done].
      * right. split; [done|].
        intros [|j] child' Hl; simpl in Hl; [by simplify_eq|].
        by apply (Hin j).
    + left. exists 0%nat, e. repeat split; [lia|done|]. intros; lia.
Qed.

Lemma getPreviousNonvisibleChildIndex_loop_cases (lay : Layout)
    (page : DOMRect) (before : list node) (c : Z) :
  (∃ (k : nat) child,
     getPreviousNonvisibleChildIndex_loop lay page before c
       = c - Z.of_nat k ∧
     before !! k = Some child ∧
     rectContains page (getBoundingClientRect lay child) = false ∧
     ∀ (j : nat) child', (j < k)%nat → before !! j = Some child' →
       rectContains page (getBoundingClientRect lay child') = true)
  ∨ (getPreviousNonvisibleChildIndex_loop lay page before c = 0 ∧
     ∀ (j : nat) child', before !! j = Some child' →
       rectContains page (getBoundingClientRect lay child') = true).
Proof.
  revert c. induction before as [|e rest IH]; intros c; simpl.
  - right. split; [done|]. intros j child' H. done.
  - destruct (rectContains page (getBoundingClientRect lay e)) eqn:E; simpl.
    + destruct (IH (c - 1)) as [(k & child & -> & Hk & Hout & Hin)|[-> Hin]].
      * left. exists (S k), child. repeat split; [lia|done|done|].
        intros [|j] child' Hj Hl; simpl in Hl; [by simplify_eq|].
        apply (Hin j); [lia|done].
      * right. split; [done|].
        intros [|j] child' Hl; simpl in Hl; [by simplify_eq|].
        by apply (Hin j).
    + left. exists 0%nat, e. repeat split; [lia|done|]. intros; lia.
Qed.

End geometry.

Section page_boundaries.
Implicit Types (st : SelectionElement) (lay : Layout).

Lemma lookup_reverse_take (l : list node) (i k : nat) child :
  (i ≤ length l)%nat →
  reverse (take i l) !! k = Some child →
  (k < i)%nat ∧ l !! (i - 1 - k)%nat = Some child.
Proof.
  intros Hi Hk.
  assert (k < i)%nat as Hlt.
  { apply lookup_lt_Some in Hk. by rewrite length_reverse, length_take_le in Hk. }
  split; [done|].
  rewrite reverse_lookup in Hk by (rewrite length_take_le; lia).
  rewrite length_take_le in Hk by done.
  rewrite lookup_take_lt in Hk by lia.
  by replace (i - 1 - k)%nat with (i - S k)%nat by lia.
Qed.

Lemma getNextNonvisibleChildIndex_none st lay :
  selectedIndex st = -1 → getNextNonvisibleChildIndex st lay = Some (-1).
Proof. intros H. unfold getNextNonvisibleChildIndex. by rewrite H. Qed.

Lemma getPreviousNonvisibleChildIndex_none st lay :
  selectedIndex st = -1 → getPreviousNonvisibleChildIndex st lay = Some (-1).
Proof. intros H. unfold getPreviousNonvisibleChildIndex. by rewrite H. Qed.

Lemma getNextNonvisibleChildIndex_scan st lay (i : nat) selected :
  selectedIndex st = Z.of_nat i → children st !! i = Some selected →
  let container := getBoundingClientRect lay (this st) in
  let reference := getBoundingClientRect lay selected in
  ∃ r, getNextNonvisibleChildIndex st lay = Some r ∧
       firstOutsideAfter st lay
         (containedInShifted container
            (PrimFloat.sub (Rect.left reference) (Rect.left container))
            (PrimFloat.sub (Rect.top reference) (Rect.top container))) i r.
Proof.
  intros Hi Hsel container reference.
  unfold getNextNonvisibleChildIndex. rewrite Hi.
  rewrite (proj2 (Z.eqb_neq _ _)) by lia.
  unfold item. rewrite (proj2 (Z.ltb_ge _ _)) by lia.
  rewrite Nat2Z.id, Hsel. simpl.
  fold container reference.
  replace (Z.to_nat (Z.of_nat i + 1)) with (S i) by lia.
  eexists. split; [done|].
  match goal with
  | |- context [getNextNonvisibleChildIndex_loop lay ?p ?rest ?c ?last] =>
      destruct (getNextNonvisibleChildIndex_loop_cases lay p rest c last)
        as [(k & child & -> & Hk & Hout & Hin)|[-> Hin]]
  end.
  - left. rewrite lookup_drop in Hk.
    exists (S i + k)%nat, child. split_and!; [lia|lia|done| |].
    + rewrite <- rectContains_translate. by rewrite Hout.
    + intros j child' Hj Hl. apply rectContains_translate.
      apply (Hin (j - S i)%nat); [lia|].
      rewrite lookup_drop. by replace (S i + (j - S i))%nat with j by lia.
  - right. split; [done|].
    intros j child' Hj Hl. apply rectContains_translate.
    apply (Hin (j - S i)%nat).
    rewrite lookup_drop. by replace (S i + (j - S i))%nat with j by lia.
Qed.

Lemma getPreviousNonvisibleChildIndex_scan st lay (i : nat) selected :
  selectedIndex st = Z.of_nat i → children st !! i = Some selected →
  let container := getBoundingClientRect lay (this st) in
  let reference := getBoundingClientRect lay selected in
  ∃ r, getPreviousNonvisibleChildIndex st lay = Some r ∧
       firstOutsideBefore st lay
         (containedInShiftedBack container
            (PrimFloat.sub (Rect.right container) (Rect.right reference))
            (PrimFloat.sub (Rect.bottom container) (Rect.bottom reference)))
         i r.
Proof.
  intros Hi Hsel container reference.
  assert (i ≤ length (children st))%nat as Hle
    by (apply lookup_lt_Some in Hsel; lia).
  unfold getPreviousNonvisibleChildIndex. rewrite Hi.
  rewrite (proj2 (Z.eqb_neq _ _)) by lia.
  unfold item. rewrite (proj2 (Z.ltb_ge _ _)) by lia.
  rewrite Nat2Z.id, Hsel. simpl.
  fold container reference.
  eexists. split; [done|].
  match goal with
  | |- context [getPreviousNonvisibleChildIndex_loop lay ?p ?before ?c] =>
      destruct (getPreviousNonvisibleChildIndex_loop_cases lay p before c)
        as [(k & child & -> & Hk & Hout & Hin)|[-> Hin]]
  end.
  - left. apply lookup_reverse_take in Hk as [Hlt Hk]; [|done].
    exists (i - 1 - k)%nat, child. split_and!; [lia|lia|done| |].
    + rewrite <- rectContains_translateBack. by rewrite Hout.
    + intros j child' Hj Hl. apply rectContains_translateBack.
      apply (Hin (i - 1 - j)%nat); [lia|].
      rewrite reverse_lookup by (rewrite length_take_le; lia).
      rewrite length_take_le, lookup_take_lt by lia.
      by replace (i - S (i - 1 - j))%nat with j by lia.
  - right. split; [done|].
    intros j child' Hj Hl. apply rectContains_translateBack.
    apply (Hin (i - 1 - j)%nat).
    rewrite reverse_lookup by (rewrite length_take_le; lia).
    rewrite length_take_le, lookup_take_lt by lia.
    by replace (i - S (i - 1 - j))%nat with j by lia.
Qed.


(** The shift rounds as the source's does: with the container at
    [y = 0.3] and a row of items at [y = 0.9], the window's top is
    [0.3 + (0.9 - 0.3)], the double above [0.9], so the item next to the
    selected one is already outside and the forward scan returns 1. *)
Example page_window_rounds :
  getNextNonvisibleChildIndex Examples.page Examples.fractionalLayout
  = Some 1.
Proof. by vm_compute. Qed.

End page_boundaries.

(** ** The [selectedChild] setter *)

Section selectedChild_setter.
Implicit Types (st : SelectionElement) (el child : node).

(** C2, as stated, fails: with the second of three items selected, assigning
    [null], an element outside the control, or a grandchild to
    [selectedChild] does not leave the selection as it was; it empties it. *)
Lemma set_selectedChild_non_child_changes_selection :
  selectedChildren Examples.list3_second = [2%nat] ∧
  selectedChildren (set_selectedChild Examples.list3_second None)
    ≠ selectedChildren Examples.list3_second ∧
  selectedChildren (set_selectedChild Examples.list3_second (Some 99%nat))
    ≠ selectedChildren Examples.list3_second ∧
  selectedChildren (set_selectedChild Examples.list3_second (Some 4%nat))
    ≠ selectedChildren Examples.list3_second.
Proof. vm_compute. by repeat split. Qed.

(** C2, amended.  Assigning to [selectedChild] a value that is not one of
    the control's children (null, an element elsewhere, a grandchild) clears
    the selection: no child is selected afterwards.  Nothing else changes:
    the children, the other attributes, the markers of elements outside the
    children, the mode, and no event is dispatched. *)
Theorem set_selectedChild_non_child_clears st (element : option node) :
  (∀ child, element = Some child → child ∉ children st) →
  let st' := set_selectedChild st element in
  selectedChildren st' = [] ∧
  (∀ child, child ∈ children st → isSelected st' child = false) ∧
  (∀ el, el ∉ children st → isSelected st' el = isSelected st el) ∧
  onlyMarkersChanged st st' ∧
  allowMultipeSelections st' = allowMultipeSelections st ∧
  effects st' = effects st.
Proof.
  intros Hout st'. unfold st'. rewrite set_selectedChild_outside by done.
  split_and!.
  - apply selectedChildren_clearSelection.
  - apply isSelected_clearSelection_child.
  - intros el Hel. rewrite isSelected_clearSelection.
    rewrite bool_decide_eq_true_2 by done. apply andb_true_r.
  - apply onlyMarkersChanged_clear.
  - apply allowMultipeSelections_clearSelection.
  - apply effects_clearSelection.
Qed.

Lemma set_selectedChild_non_child_clears_witness :
  (∀ child, Some 4%nat = Some child → child ∉ children Examples.list3_second) ∧
  selectedChildren (set_selectedChild Examples.list3_second (Some 4%nat)) = [].
Proof.
  assert (∀ child, Some 4%nat = Some child →
                   child ∉ children Examples.list3_second) as Hout.
  { intros child [= <-]. compute_done. }
  split; [exact Hout|].
  apply (set_selectedChild_non_child_clears Examples.list3_second _ Hout).
Defined.

End selectedChild_setter.

(** ** Pointer presses *)

Section pointer.
Implicit Types (st : SelectionElement) (el child : node).
Implicit Types (event : PointerEvent.t).

Lemma effects_notifySelectionChange st :
  effects (notifySelectionChange st)
  = (effects st ++ [DispatchEvent "change"; DispatchEvent "input"])%list.
Proof. done. Qed.

Lemma dispatched_notifySelectionChange st :
  dispatched (notifySelectionChange st)
  = (dispatched st ++ ["change"; "input"])%list.
Proof. unfold dispatched. simpl. by rewrite omap_app. Qed.

Lemma selectedChildren_perform st es :
  selectedChildren (perform st es) = selectedChildren st.
Proof. done. Qed.

Lemma isSelected_perform st es el :
  isSelected (perform st es) el = isSelected st el.
Proof. done. Qed.

(** A press on the host itself is ignored. *)
Lemma handlePointerDown_host st event :
  PointerEvent.target event = this st → handlePointerDown st event = Some st.
Proof. intros H. unfold handlePointerDown. by rewrite decide_True. Qed.

(** So is a press whose default action another listener has prevented. *)
Lemma handlePointerDown_defaultPrevented st event :
  PointerEvent.defaultPrevented event = true →
  handlePointerDown st event = Some st.
Proof.
  intros H. unfold handlePointerDown. rewrite H. by case_decide.
Qed.

(** The body of the handler once the press has passed both guards. *)
Lemma handlePointerDown_resolved st event el :
  PointerEvent.target event ≠ this st →
  PointerEvent.defaultPrevented event = false →
  retarget st (PointerEvent.target event) = Some el →
  handlePointerDown st event =
    if allowMultipeSelections st && PointerEvent.shiftKey event then
      if isSelected st el then
        Some (notifySelectionChange (removeFromSelection st el))
      else Some (notifySelectionChange (addToSelection st el))
    else if isSelected st el then Some st
    else Some (notifySelectionChange (addToSelection (clearSelection st) el)).
Proof.
  intros Hne Hdp Hre. unfold handlePointerDown.
  rewrite decide_False, Hdp, Hre by done. done.
Qed.

(** In a consistent tree a press on a child, or on an element one level
    below a child, resolves to that child. *)
Lemma retarget_child st child :
  wf st → child ∈ children st → retarget st child = Some child.
Proof.
  intros (_ & Hp & _) Hc. unfold retarget.
  rewrite (proj1 (Forall_forall _ _) Hp child Hc). by rewrite decide_False by tauto.
Qed.

Lemma retarget_grandchild st el child :
  wf st → child ∈ children st → parentElement st !! el = Some child →
  retarget st el = Some child.
Proof.
  intros (_ & _ & _ & Hthis) Hc Hp. unfold retarget. rewrite Hp.
  rewrite decide_True; [done|]. intros [= ->]. done.
Qed.

(** C3, as stated, fails: in multi-selection mode with the items at indices
    1, 3 and 4 selected, a press without shift on the item at index 1 (which
    is selected, but not alone) changes nothing and dispatches nothing; the
    selection does not become that item alone. *)
Lemma press_on_selected_among_others_is_ignored :
  let event := Examples.press 2 false in
  isSelected Examples.gallery 2 = true ∧
  selectedChildren Examples.gallery ≠ [2%nat] ∧
  handlePointerDown Examples.gallery event = Some Examples.gallery.
Proof. vm_compute. by repeat split. Qed.

(** C3, amended.  A press without shift, not default-prevented, that
    resolves to a child of the control: when that child is selected (alone
    or with others) nothing changes and nothing is dispatched; when it is
    not, the whole selection is cleared, exactly the pressed child is
    selected, and one [change] followed by one [input] is dispatched. *)
Theorem press_without_shift st event child :
  NoDup (children st) →
  PointerEvent.shiftKey event = false →
  PointerEvent.defaultPrevented event = false →
  PointerEvent.target event ≠ this st →
  retarget st (PointerEvent.target event) = Some child →
  child ∈ children st →
  (isSelected st child = true → handlePointerDown st event = Some st) ∧
  (isSelected st child = false →
   ∃ st', handlePointerDown st event = Some st' ∧
          selectedChildren st' = [child] ∧
          effects st'
          = (effects st ++ [DispatchEvent "change"; DispatchEvent "input"])%list).
Proof.
  intros Hnd Hshift Hdp Hne Hre Hc.
  rewrite (handlePointerDown_resolved st event child) by done.
  rewrite Hshift, andb_false_r. split; intros ->; [done|].
  eexists. split; [done|]. split.
  - unfold notifySelectionChange. rewrite selectedChildren_perform.
    by apply selectedChildren_exclusive.
  - rewrite effects_notifySelectionChange. simpl.
    by rewrite effects_clearSelection.
Qed.

Lemma press_without_shift_witness :
  let st := Examples.list3_second in
  let event := Examples.press 4 false in
  isSelected st 1 = false ∧
  ∃ st', handlePointerDown st event = Some st' ∧
         selectedChildren st' = [1%nat] ∧
         effects st'
         = (effects st ++ [DispatchEvent "change"; DispatchEvent "input"])%list.
Proof.
  intros st event.
  assert (isSelected st 1 = false) as Hsel by (by vm_compute).
  split; [exact Hsel|].
  refine (proj2 (press_without_shift st event 1%nat _ _ _ _ _ _) Hsel).
  - compute_done.
  - reflexivity.
  - reflexivity.
  - compute_done.
  - compute_done.
  - compute_done.
Defined.

End pointer.

Section pointer_additive.
Implicit Types (st : SelectionElement) (el child : node).
Implicit Types (event : PointerEvent.t).




(** C4 on the code: the handler climbs one [parentElement] step, not to the
    nearest child of the control.  A press on the [b] inside the [span]
    inside the first item (element 5, whose nearest ancestor among the
    children is element 1) puts the marker on the [span] (element 4), which
    is not a child of the control; the first item stays unselected, and
    [change] and [input] are dispatched although no child is selected. *)
Theorem press_two_levels_below_marks_non_child :
  let st := Examples.list3 in
  directChildAncestor st 3 5 = Some 1%nat ∧
  retarget st 5 = Some 4%nat ∧
  (4%nat ∉ children st) ∧
  ∃ st', handlePointerDown st (Examples.press 5 false) = Some st' ∧
         isSelected st' 4 = true ∧
         isSelected st' 1 = false ∧
         selectedChildren st' = [] ∧
         dispatched st' = ["change"; "input"]%string.
Proof.
  intros st. split_and!; [compute_done..|].
  eexists. split; [by vm_compute|]. split_and!; compute_done.
Qed.

(** What holds of C4: a press on the host is ignored, and a press on a child
    or one level below a child acts on that child, which is the nearest
    ancestor among the children. *)
Lemma retarget_shallow st el child :
  wf st → el ≠ this st → child ∈ children st →
  (el = child ∨ parentElement st !! el = Some child) →
  retarget st el = Some child ∧ directChildAncestor st 2 el = Some child.
Proof.
  intros Hwf Hne Hc [->|Hp].
  - split; [by apply retarget_child|].
    destruct Hwf as (_ & Hpar & _). simpl.
    rewrite (proj1 (Forall_forall _ _) Hpar child Hc). simpl.
    by rewrite decide_True.
  - split; [by eapply retarget_grandchild|].
    destruct Hwf as (_ & Hpar & _ & Hthis). simpl. rewrite Hp. simpl.
    rewrite decide_False by (intros ->; done).
    rewrite (proj1 (Forall_forall _ _) Hpar child Hc). simpl.
    by rewrite decide_True.
Qed.

End pointer_additive.

(** ** Leaving multi-selection mode *)

Section mode_change.
Implicit Types (st : SelectionElement) (el child : node).

(** The getter returns the lowest index of a selected child. *)
Lemma selectedIndex_is_lowest st (i : nat) child :
  children st !! i = Some child → isSelected st child = true →
  (∀ (j : nat) c, (j < i)%nat → children st !! j = Some c →
                  isSelected st c = false) →
  selectedIndex st = Z.of_nat i.
Proof.
  intros Hi Hs Hlow.
  assert (selectedIndex st ≠ -1) as Hne.
  { rewrite selectedIndex_none, selectedChildren_nil. intros H.
    rewrite (H child) in Hs; [done|]. by eapply list_elem_of_lookup_2. }
  destruct (selectedIndex_lowest st Hne) as (k & c & -> & Hk & Hsk & Hlowk).
  f_equal. destruct (Nat.lt_trichotomy k i) as [Hlt|[->|Hgt]]; [|done|].
  - rewrite (Hlow k c Hlt Hk) in Hsk. done.
  - rewrite (Hlowk i child Hgt Hi) in Hs. done.
Qed.

Lemma selection_with_allowMultipeSelections st (b : bool) :
  selectedChildren (with_allowMultipeSelections st b) = selectedChildren st ∧
  selectedIndex (with_allowMultipeSelections st b) = selectedIndex st.
Proof. split; [reflexivity|]. symmetry. by apply selectedIndex_ext. Qed.

(** C7. Removing the [multiple] attribute.  When some child is selected, the
    child with the lowest selected index stays selected and it is the only
    selected child afterwards; when none is, the selection stays empty and no
    attribute changes.  Multi-selection mode is off afterwards, and nothing
    is dispatched.  From selected indices {1, 3, 4} exactly the child at
    index 1 remains selected. *)
Theorem remove_multiple_keeps_lowest st (oldValue : option string) :
  NoDup (children st) →
  ∃ st', attributeChangedCallback st "multiple" oldValue None = Some st' ∧
         allowMultipeSelections st' = false ∧
         effects st' = effects st ∧
         (∀ (i : nat) child,
            children st !! i = Some child → isSelected st child = true →
            (∀ (j : nat) c, (j < i)%nat → children st !! j = Some c →
                            isSelected st c = false) →
            selectedChildren st' = [child] ∧ selectedIndex st' = Z.of_nat i) ∧
         (selectedChildren st = [] →
            selectedChildren st' = [] ∧ attributes st' = attributes st).
Proof.
  intros Hnd. unfold attributeChangedCallback.
  rewrite decide_True by done.
  destruct (Z.gtb_spec (selectedIndex st) (-1)) as [Hgt|Hle].
  - destruct (selectedIndex_lowest st) as (k & c & Hk & Hc & Hs & Hlow); [lia|].
    rewrite children_clearSelection.
    unfold item. rewrite Hk, (proj2 (Z.ltb_ge _ _)) by lia.
    rewrite Nat2Z.id, Hc. simpl.
    eexists. split; [done|]. simpl. split_and!.
    + done.
    + apply effects_clearSelection.
    + intros i child Hi Hsel Hlowi.
      pose proof (selectedIndex_is_lowest st i child Hi Hsel Hlowi) as E.
      assert (i = k) as -> by lia. simplify_eq.
      rewrite !(proj1 (selection_with_allowMultipeSelections _ _)).
      rewrite !(proj2 (selection_with_allowMultipeSelections _ _)).
      split.
      * apply (selectedChildren_exclusive st c); [done|].
        by eapply list_elem_of_lookup_2.
      * by apply (selectedIndex_exclusive st c k).
    + intros Hnil. apply selectedIndex_none in Hnil. lia.
  - assert (selectedIndex st = -1) as Hnone
      by (pose proof (selectedIndex_range st); lia).
    eexists. split; [done|]. simpl. split_and!; try done.
    intros i child Hi Hsel Hlowi.
    rewrite (selectedIndex_is_lowest st i child Hi Hsel Hlowi) in Hnone. lia.
Qed.

Lemma remove_multiple_keeps_lowest_witness :
  NoDup (children Examples.gallery) ∧
  ∃ st', attributeChangedCallback Examples.gallery "multiple" (Some "") None
         = Some st' ∧
         selectedChildren Examples.gallery = [2; 4; 5]%nat ∧
         selectedChildren st' = [2%nat].
Proof.
  assert (NoDup (children Examples.gallery)) as Hnd by compute_done.
  split; [exact Hnd|].
  destruct (remove_multiple_keeps_lowest Examples.gallery (Some "") Hnd)
    as (st' & E & _ & _ & Hlow & _).
  exists st'. split; [exact E|]. split; [compute_done|].
  apply (Hlow 1%nat 2%nat); [reflexivity|compute_done|].
  intros [|j] c Hj Hc; [|lia]. injection Hc as <-. compute_done.
Defined.

End mode_change.

(** ** What no operation touches *)

Section frame.
Implicit Types (st : SelectionElement) (el child : node).

Lemma onlyMarkersChanged_with_allowMultipeSelections st b :
  onlyMarkersChanged st (with_allowMultipeSelections st b).
Proof. by repeat split. Qed.

Lemma onlyMarkersChanged_exclusive st el :
  onlyMarkersChanged st (addToSelection (clearSelection st) el).
Proof.
  eapply onlyMarkersChanged_trans;
    [apply onlyMarkersChanged_clear|apply onlyMarkersChanged_add].
Qed.

Lemma onlyMarkersChanged_notify st st' :
  onlyMarkersChanged st st' → onlyMarkersChanged st (notifySelectionChange st').
Proof.
  intros H. eapply onlyMarkersChanged_trans; [exact H|].
  apply onlyMarkersChanged_perform.
Qed.

Lemma onlyMarkersChanged_scroll st st' :
  onlyMarkersChanged st st' →
  onlyMarkersChanged st (scrollSelectionIntoView st').
Proof.
  intros H. unfold scrollSelectionIntoView.
  destruct (selectedChild st'); [|done].
  eapply onlyMarkersChanged_trans; [exact H|].
  apply onlyMarkersChanged_perform.
Qed.

Lemma onlyMarkersChanged_set_selectedIndex st value :
  onlyMarkersChanged st (set_selectedIndex st value).
Proof.
  unfold set_selectedIndex.
  destruct (_ && _); [|apply onlyMarkersChanged_clear].
  destruct (item _ _); [|apply onlyMarkersChanged_clear].
  apply onlyMarkersChanged_exclusive.
Qed.

Lemma onlyMarkersChanged_set_selectedChild_loop st rest element :
  onlyMarkersChanged st (set_selectedChild_loop st rest element).
Proof.
  induction rest as [|c rest IH]; simpl; [apply onlyMarkersChanged_refl|].
  case_decide; [apply onlyMarkersChanged_add|apply IH].
Qed.

Lemma onlyMarkersChanged_set_selectedChild st element :
  onlyMarkersChanged st (set_selectedChild st element).
Proof.
  unfold set_selectedChild.
  eapply onlyMarkersChanged_trans; [apply onlyMarkersChanged_clear|].
  apply onlyMarkersChanged_set_selectedChild_loop.
Qed.

Lemma onlyMarkersChanged_keyHandler st lay event st' event' :
  keyHandler st lay event = Some (st', event') → onlyMarkersChanged st st'.
Proof.
  unfold keyHandler. intros H.
  destruct (newSelectionIndex st lay _) as [[n|]|]; simplify_eq/=.
  - case_decide; simplify_eq.
    + apply onlyMarkersChanged_notify, onlyMarkersChanged_scroll.
      apply onlyMarkersChanged_set_selectedIndex.
    + apply onlyMarkersChanged_refl.
  - apply onlyMarkersChanged_refl.
Qed.

Lemma onlyMarkersChanged_handlePointerDown st event st' :
  handlePointerDown st event = Some st' → onlyMarkersChanged st st'.
Proof.
  unfold handlePointerDown. intros H.
  case_decide; [simplify_eq; apply onlyMarkersChanged_refl|].
  destruct (PointerEvent.defaultPrevented event);
    [simplify_eq; apply onlyMarkersChanged_refl|].
  destruct (retarget st _) as [el|]; simplify_eq/=.
  destruct (_ && _), (isSelected st el); simplify_eq.
  - apply onlyMarkersChanged_notify, onlyMarkersChanged_remove.
  - apply onlyMarkersChanged_notify, onlyMarkersChanged_add.
  - apply onlyMarkersChanged_refl.
  - apply onlyMarkersChanged_notify, onlyMarkersChanged_exclusive.
Qed.

Lemma onlyMarkersChanged_attributeChangedCallback st attr oldValue newValue st' :
  attributeChangedCallback st attr oldValue newValue = Some st' →
  onlyMarkersChanged st st'.
Proof.
  unfold attributeChangedCallback. intros H.
  case_decide; [|simplify_eq; apply onlyMarkersChanged_refl].
  destruct newValue as [v|]; simplify_eq/=.
  - apply onlyMarkersChanged_with_allowMultipeSelections.
  - destruct (selectedIndex st >? -1); simplify_eq/=.
    + destruct (item _ _) as [child|]; simplify_eq/=.
      eapply onlyMarkersChanged_trans;
        [apply onlyMarkersChanged_exclusive|].
      apply onlyMarkersChanged_with_allowMultipeSelections.
    + apply onlyMarkersChanged_with_allowMultipeSelections.
Qed.

Lemma onlyMarkersChanged_exec st op st' :
  exec st op = Some st' → onlyMarkersChanged st st'.
Proof.
  destruct op as [value|element|event lay|event]; simpl; intros H.
  - simplify_eq. apply onlyMarkersChanged_set_selectedIndex.
  - simplify_eq. apply onlyMarkersChanged_set_selectedChild.
  - destruct (keyHandler st lay event) as [[st1 ev1]|] eqn:E; simplify_eq/=.
    by eapply onlyMarkersChanged_keyHandler.
  - by eapply onlyMarkersChanged_handlePointerDown.
Qed.

Lemma onlyMarkersChanged_step st op : onlyMarkersChanged st (step st op).
Proof.
  unfold step. destruct (exec st op) eqn:E; simpl.
  - by eapply onlyMarkersChanged_exec.
  - apply onlyMarkersChanged_refl.
Qed.

(** C10. Every selection operation (the two setters, a key press, a pointer
    press, the change of the [multiple] attribute) leaves the host, the list
    of children (so their number and the index of each) and the tree as they
    were, and on every element leaves every attribute other than the
    selection marker as it was. *)
Theorem operations_only_change_markers st :
  (∀ op st', exec st op = Some st' →
     onlyMarkersChanged st st' ∧
     length_ st' = length_ st ∧
     ∀ i : nat, children st' !! i = children st !! i) ∧
  (∀ attr oldValue newValue st',
     attributeChangedCallback st attr oldValue newValue = Some st' →
     onlyMarkersChanged st st' ∧
     length_ st' = length_ st ∧
     ∀ i : nat, children st' !! i = children st !! i).
Proof.
  split.
  - intros op st' H. apply onlyMarkersChanged_exec in H.
    split; [done|]. destruct H as (_ & Hc & _).
    unfold length_. by rewrite Hc.
  - intros attr oldValue newValue st' H.
    apply onlyMarkersChanged_attributeChangedCallback in H.
    split; [done|]. destruct H as (_ & Hc & _).
    unfold length_. by rewrite Hc.
Qed.

End frame.

(** ** Keyboard navigation *)

Section keyboard.
Implicit Types (st : SelectionElement) (lay : Layout) (el child : node).
Implicit Types (event : KeyboardEvent.t) (key : string).

Lemma keyHandler_claimed st lay event n :
  newSelectionIndex st lay (KeyboardEvent.key event) = Some (Some n) →
  keyHandler st lay event
  = Some (if decide (n ≠ selectedIndex st) then commit st n else st,
          KeyboardEvent.preventDefault event).
Proof. intros H. unfold keyHandler. rewrite H. simpl. by case_decide. Qed.

Lemma keyHandler_unclaimed st lay event :
  newSelectionIndex st lay (KeyboardEvent.key event) = Some None →
  keyHandler st lay event = Some (st, event).
Proof. intros H. unfold keyHandler. by rewrite H. Qed.

Lemma commit_inside st (i : nat) child :
  NoDup (children st) → children st !! i = Some child →
  selectedChildren (commit st (Z.of_nat i)) = [child] ∧
  selectedIndex (commit st (Z.of_nat i)) = Z.of_nat i ∧
  effects (commit st (Z.of_nat i))
  = (effects st ++ [ScrollIntoView child; DispatchEvent "change";
                    DispatchEvent "input"])%list.
Proof.
  intros Hnd Hi.
  assert (item (children st) (Z.of_nat i) = Some child) as Hitem.
  { apply item_Some. rewrite Nat2Z.id. split; [lia|done]. }
  assert (child ∈ children st) as Hin by (by eapply list_elem_of_lookup_2).
  unfold commit. rewrite (set_selectedIndex_inside st _ child Hitem).
  set (st1 := addToSelection (clearSelection st) child).
  assert (selectedIndex st1 = Z.of_nat i) as Hidx
    by (by apply selectedIndex_exclusive).
  assert (scrollSelectionIntoView st1 = perform st1 [ScrollIntoView child])
    as ->.
  { unfold scrollSelectionIntoView, selectedChild. rewrite Hidx.
    rewrite (proj2 (Z.gtb_gt _ _)) by lia.
    unfold st1 at 1. rewrite children_exclusive. by rewrite Hitem. }
  unfold notifySelectionChange. split_and!.
  - rewrite !selectedChildren_perform. by apply selectedChildren_exclusive.
  - by rewrite !selectedIndex_perform.
  - simpl. rewrite effects_clearSelection. by rewrite <- app_assoc.
Qed.

(** The page scans return -1 or the index of a child. *)
Lemma getNextNonvisibleChildIndex_range st lay :
  ∃ r, getNextNonvisibleChildIndex st lay = Some r ∧
       (r = -1 ∨ 0 ≤ r < length_ st).
Proof.
  destruct (decide (selectedIndex st = -1)) as [E|Hne].
  - exists (-1). split; [by apply getNextNonvisibleChildIndex_none|by left].
  - destruct (selectedIndex_lowest st Hne) as (i & child & Hi & Hc & _).
    destruct (getNextNonvisibleChildIndex_scan st lay i child Hi Hc)
      as (r & Hr & Hcases).
    exists r. split; [done|]. right. unfold length_.
    apply lookup_lt_Some in Hc.
    destruct Hcases as [(c & ch & -> & _ & Hl & _)|[-> _]].
    + apply lookup_lt_Some in Hl. lia.
    + unfold length_. lia.
Qed.

Lemma getPreviousNonvisibleChildIndex_range st lay :
  ∃ r, getPreviousNonvisibleChildIndex st lay = Some r ∧
       (r = -1 ∨ 0 ≤ r < length_ st).
Proof.
  destruct (decide (selectedIndex st = -1)) as [E|Hne].
  - exists (-1).
    split; [by apply getPreviousNonvisibleChildIndex_none|by left].
  - destruct (selectedIndex_lowest st Hne) as (i & child & Hi & Hc & _).
    destruct (getPreviousNonvisibleChildIndex_scan st lay i child Hi Hc)
      as (r & Hr & Hcases).
    exists r. split; [done|]. right. unfold length_.
    apply lookup_lt_Some in Hc.
    destruct Hcases as [(c & ch & -> & _ & Hl & _)|[-> _]].
    + apply lookup_lt_Some in Hl. lia.
    + lia.
Qed.

(** The key tests never raise, and the index they compute is the current
    one, or the index of a child, or the 0 of [Home] on a control without
    children. *)
Lemma newSelectionIndex_cases st lay key :
  newSelectionIndex st lay key = Some None ∨
  ∃ n, newSelectionIndex st lay key = Some (Some n) ∧
       (n = selectedIndex st ∨ 0 ≤ n < length_ st ∨
        (key = "Home"%string ∧ n = 0 ∧ children st = [])).
Proof.
  pose proof (selectedIndex_range st) as Hr.
  unfold newSelectionIndex.
  destruct (String.eqb_spec key "Home") as [->|_].
  { right. exists 0. split; [done|].
    destruct (children st) as [|c l] eqn:E.
    - right. right. done.
    - right. left. unfold length_. rewrite E. simpl. lia. }
  destruct (String.eqb_spec key "End") as [->|_].
  { right. eexists. split; [done|]. lia. }
  destruct (String.eqb_spec key "PageUp") as [->|_].
  { right. destruct (getPreviousNonvisibleChildIndex_range st lay)
      as (r & -> & Hcase). simpl. eexists. split; [done|].
    destruct (Z.gtb_spec r (-1)); lia. }
  destruct (String.eqb_spec key "PageDown") as [->|_].
  { right. destruct (getNextNonvisibleChildIndex_range st lay)
      as (r & -> & Hcase). simpl. eexists. split; [done|].
    destruct (Z.gtb_spec r (-1)); lia. }
  destruct (_ || _).
  { right. eexists. split; [done|].
    destruct (Z.ltb_spec (selectedIndex st) (length_ st - 1)); lia. }
  destruct (_ || _).
  { right. eexists. split; [done|].
    destruct (Z.gtb_spec (selectedIndex st) 0); lia. }
  by left.
Qed.

(** The handler never raises. *)
Lemma keyHandler_total st lay event : is_Some (keyHandler st lay event).
Proof.
  destruct (newSelectionIndex_cases st lay (KeyboardEvent.key event))
    as [H|(n & H & _)].
  - rewrite (keyHandler_unclaimed _ _ _ H). eauto.
  - rewrite (keyHandler_claimed _ _ _ _ H). eauto.
Qed.

End keyboard.

Section arrows.
Implicit Types (st : SelectionElement) (lay : Layout) (el child : node).
Implicit Types (event : KeyboardEvent.t) (key : string).

Lemma dispatched_app st es :
  dispatched (perform st es)
  = (dispatched st
     ++ omap (λ e, match e with DispatchEvent type => Some type | _ => None end)
             es)%list.
Proof. unfold dispatched. simpl. by rewrite omap_app. Qed.

Lemma run_onlyMarkersChanged st ops :
  Forall (onlyMarkersChanged st) (run st ops).
Proof.
  revert st. induction ops as [|op ops IH]; intros st; simpl; [constructor|].
  pose proof (onlyMarkersChanged_step st op) as Hstep.
  constructor; [done|].
  eapply Forall_impl; [apply IH|]. intros s Hs.
  by eapply onlyMarkersChanged_trans.
Qed.

Lemma newSelectionIndex_arrow_forward st lay key :
  key = "ArrowRight"%string ∨ key = "ArrowDown"%string →
  newSelectionIndex st lay key
  = Some (Some (Z.min (selectedIndex st + 1) (length_ st - 1))).
Proof.
  pose proof (selectedIndex_range st) as Hr.
  intros [-> | ->]; unfold newSelectionIndex; simpl;
    destruct (Z.ltb_spec (selectedIndex st) (length_ st - 1));
    do 2 f_equal; lia.
Qed.

Lemma newSelectionIndex_arrow_backward st lay key :
  key = "ArrowLeft"%string ∨ key = "ArrowUp"%string →
  newSelectionIndex st lay key
  = Some (Some (if decide (selectedIndex st = -1) then -1
                else Z.max (selectedIndex st - 1) 0)).
Proof.
  pose proof (selectedIndex_range st) as Hr.
  intros [-> | ->]; unfold newSelectionIndex; simpl;
    destruct (Z.gtb_spec (selectedIndex st) 0);
    case_decide; do 2 f_equal; lia.
Qed.

(** A key whose new index is the current one or the index of a child: the
    handler returns, and the getter then returns the new index. *)
Lemma keyHandler_moves_to st lay event n :
  NoDup (children st) →
  newSelectionIndex st lay (KeyboardEvent.key event) = Some (Some n) →
  n = selectedIndex st ∨ 0 ≤ n < length_ st →
  ∃ st', keyHandler st lay event
         = Some (st', KeyboardEvent.preventDefault event) ∧
         selectedIndex st' = n.
Proof.
  intros Hnd Hn Hrange. rewrite (keyHandler_claimed _ _ _ _ Hn).
  eexists. split; [done|].
  case_decide as Hne; [|by destruct (decide (n = selectedIndex st))].
  destruct Hrange as [?|Hrange]; [done|].
  destruct (item_is_Some (children st) n Hrange) as [child Hitem].
  apply item_Some in Hitem as [H0 Hitem].
  destruct (commit_inside st (Z.to_nat n) child Hnd Hitem) as (_ & Hidx & _).
  rewrite Z2Nat.id in Hidx by done. done.
Qed.

(** C6, as stated, fails for ArrowUp (and ArrowLeft) when nothing is
    selected: the new index is not [selectedIndex - 1] clamped to 0, which
    is 0, but stays -1, and the press selects nothing and dispatches
    nothing. *)
Lemma arrow_up_with_nothing_selected :
  let st := Examples.list3 in
  let event := Examples.keydown "ArrowUp" in
  selectedIndex st = -1 ∧
  Z.max (selectedIndex st - 1) 0 = 0 ∧
  newSelectionIndex st Examples.flat "ArrowUp" = Some (Some (-1)) ∧
  keyHandler st Examples.flat event
  = Some (st, KeyboardEvent.preventDefault event).
Proof. by vm_compute. Qed.

(** C6, amended.  ArrowRight and ArrowDown move to [selectedIndex + 1],
    clamped to [length - 1].  ArrowLeft and ArrowUp move to
    [selectedIndex - 1] clamped to 0 when a child is selected, and leave the
    index at -1 when none is.  ArrowDown with nothing selected on a control
    with children selects the first child alone and dispatches one [change]
    followed by one [input].  ArrowDown at the last index changes nothing
    and dispatches nothing, and no sequence of ArrowDown presses brings the
    index above [length - 1].  ArrowLeft and ArrowUp with no child selected
    change nothing: no child is selected afterwards and nothing is
    dispatched. *)
Theorem arrow_keys st lay event :
  NoDup (children st) →
  let key := KeyboardEvent.key event in
  let last := length_ st - 1 in
  (key = "ArrowRight"%string ∨ key = "ArrowDown"%string →
   ∃ st', keyHandler st lay event
          = Some (st', KeyboardEvent.preventDefault event) ∧
          selectedIndex st' = Z.min (selectedIndex st + 1) last) ∧
  (key = "ArrowLeft"%string ∨ key = "ArrowUp"%string →
   ∃ st', keyHandler st lay event
          = Some (st', KeyboardEvent.preventDefault event) ∧
          selectedIndex st'
          = if decide (selectedIndex st = -1) then -1
            else Z.max (selectedIndex st - 1) 0) ∧
  (key = "ArrowDown"%string → selectedIndex st = -1 → children st ≠ [] →
   ∃ st' first,
     keyHandler st lay event = Some (st', KeyboardEvent.preventDefault event) ∧
     children st !! 0%nat = Some first ∧
     selectedChildren st' = [first] ∧
     selectedIndex st' = 0 ∧
     dispatched st' = (dispatched st ++ ["change"; "input"]%string)%list) ∧
  (key = "ArrowDown"%string → selectedIndex st = last →
   keyHandler st lay event = Some (st, KeyboardEvent.preventDefault event)) ∧
  (key = "ArrowDown"%string →
   ∀ lays : list Layout,
     Forall (λ s, selectedIndex s ≤ last) (run st (KeyDown event <$> lays))) ∧
  (key = "ArrowLeft"%string ∨ key = "ArrowUp"%string →
   selectedIndex st = -1 →
   keyHandler st lay event = Some (st, KeyboardEvent.preventDefault event) ∧
   selectedChildren st = []).
Proof.
  intros Hnd key last. pose proof (selectedIndex_range st) as Hr.
  split_and!.
  - intros Hkey.
    pose proof (newSelectionIndex_arrow_forward st lay key Hkey) as Hn.
    apply (keyHandler_moves_to st lay event _ Hnd Hn). unfold last in *. lia.
  - intros Hkey.
    pose proof (newSelectionIndex_arrow_backward st lay key Hkey) as Hn.
    apply (keyHandler_moves_to st lay event _ Hnd Hn).
    case_decide; lia.
  - intros Hkey Hsel Hne.
    assert (0 < length (children st))%nat as Hlen
      by (destruct (children st); [done|simpl; lia]).
    destruct (lookup_lt_is_Some_2 (children st) 0%nat Hlen) as [first H0].
    pose proof (newSelectionIndex_arrow_forward st lay key (or_intror Hkey))
      as Hn.
    assert (Z.min (selectedIndex st + 1) (length_ st - 1) = Z.of_nat 0) as E
      by (unfold length_; lia).
    rewrite E in Hn. rewrite (keyHandler_claimed _ _ _ _ Hn).
    rewrite decide_True by lia.
    destruct (commit_inside st 0 first Hnd H0) as (Hc & Hi & He).
    exists (commit st (Z.of_nat 0)), first. split_and!; try done.
    unfold dispatched. rewrite He, omap_app. done.
  - intros Hkey Hsel.
    pose proof (newSelectionIndex_arrow_forward st lay key (or_intror Hkey))
      as Hn.
    rewrite (keyHandler_claimed _ _ _ _ Hn).
    rewrite decide_False; [done|]. unfold last in *. lia.
  - intros Hkey lays.
    eapply Forall_impl; [apply run_onlyMarkersChanged|].
    intros s (_ & Hc & _). simpl.
    pose proof (selectedIndex_range s) as Hs.
    unfold last, length_ in *. rewrite Hc in Hs. lia.
  - intros Hkey Hnone.
    pose proof (newSelectionIndex_arrow_backward st lay key Hkey) as Hn.
    rewrite decide_True in Hn by done.
    rewrite (keyHandler_claimed _ _ _ _ Hn).
    rewrite decide_False by (intros H; apply H; by rewrite Hnone).
    split; [done|]. by apply selectedIndex_none.
Qed.

Lemma arrow_keys_witness :
  let st := Examples.list3 in
  let event := Examples.keydown "ArrowDown" in
  NoDup (children st) ∧
  ∃ st' first,
    keyHandler st Examples.flat event
    = Some (st', KeyboardEvent.preventDefault event) ∧
    children st !! 0%nat = Some first ∧
    selectedChildren st' = [first] ∧
    selectedIndex st' = 0 ∧
    dispatched st' = (dispatched st ++ ["change"; "input"]%string)%list.
Proof.
  intros st event.
  assert (NoDup (children st)) as Hnd by compute_done.
  split; [exact Hnd|].
  destruct (arrow_keys st Examples.flat event Hnd) as (_ & _ & Hdown & _).
  apply Hdown; [reflexivity|compute_done|compute_done].
Defined.

End arrows.

(** ** Notifications *)

Section notifications.
Implicit Types (st : SelectionElement) (lay : Layout) (el child : node).

(** C5 on the code: [Home] sets the new index to 0 without looking at the
    number of children.  On a control without children the getter returns
    -1, so the handler takes the branch for a changed index: the setter
    finds index 0 out of range and selects nothing, and [change] and [input]
    are dispatched although the selection state is what it was. *)
Theorem home_on_empty_control_notifies :
  let st := Examples.empty in
  let event := Examples.keydown "Home" in
  children st = [] ∧
  selectedIndex st = -1 ∧
  newSelectionIndex st Examples.flat "Home" = Some (Some 0) ∧
  ∃ st', keyHandler st Examples.flat event
         = Some (st', KeyboardEvent.preventDefault event) ∧
         attributes st' = attributes st ∧
         selectedChildren st' = selectedChildren st ∧
         dispatched st = [] ∧
         dispatched st' = ["change"; "input"]%string.
Proof.
  intros st event. split_and!; [done..|].
  eexists. split; [by vm_compute|]. by vm_compute.
Qed.

(** What holds of C5.  The two setters dispatch nothing. *)
Lemma setters_dispatch_nothing st (value : Z) (element : option node) :
  effects (set_selectedIndex st value) = effects st ∧
  effects (set_selectedChild st element) = effects st.
Proof.
  split.
  - unfold set_selectedIndex. destruct (_ && _); [|apply effects_clearSelection].
    destruct (item _ _); simpl; apply effects_clearSelection.
  - unfold set_selectedChild.
    generalize (children (clearSelection st)). intros rest.
    rewrite <- (effects_clearSelection st).
    generalize (clearSelection st). intros st1.
    induction rest as [|c rest IH]; simpl; [done|]. by case_decide.
Qed.

Lemma selectedIndex_of_selectedChildren st st' :
  children st' = children st →
  selectedChildren st' = selectedChildren st →
  selectedIndex st' = selectedIndex st.
Proof.
  intros Hc Hs. symmetry. apply selectedIndex_ext; [done|].
  intros child Hin.
  pose proof (elem_of_selectedChildren st child) as H1.
  pose proof (elem_of_selectedChildren st' child) as H2.
  rewrite Hs, Hc in H2.
  destruct (isSelected st child), (isSelected st' child); try done.
  - symmetry. apply H2, H1. done.
  - apply H1, H2. done.
Qed.

(** A key press that leaves the selected children as they were leaves the
    whole state as it was (so dispatches nothing), except [Home] on a
    control without children. *)
Lemma keyHandler_silent_when_unchanged st lay event st' event' :
  NoDup (children st) →
  ¬ (KeyboardEvent.key event = "Home"%string ∧ children st = []) →
  keyHandler st lay event = Some (st', event') →
  selectedChildren st' = selectedChildren st →
  st' = st.
Proof.
  intros Hnd Hhome Hk Hsame.
  destruct (newSelectionIndex_cases st lay (KeyboardEvent.key event))
    as [H|(n & H & Hn)].
  - rewrite (keyHandler_unclaimed _ _ _ H) in Hk. by simplify_eq.
  - rewrite (keyHandler_claimed _ _ _ _ H) in Hk.
    destruct (decide (n ≠ selectedIndex st)) as [Hne|]; [|by simplify_eq].
    exfalso. destruct Hn as [?|[Hrange|(? & _ & ?)]]; [done| |tauto].
    assert (∃ st1, keyHandler st lay event
                   = Some (st1, KeyboardEvent.preventDefault event) ∧
                   selectedIndex st1 = n) as (st1 & Hk1 & Hidx)
      by (apply keyHandler_moves_to; auto).
    rewrite (keyHandler_claimed _ _ _ _ H), decide_True in Hk1 by done.
    injection Hk1 as <-. injection Hk as <- <-.
    apply Hne. rewrite <- Hidx.
    apply selectedIndex_of_selectedChildren; [|done].
    apply (onlyMarkersChanged_notify st), onlyMarkersChanged_scroll.
    apply onlyMarkersChanged_set_selectedIndex.
Qed.

(** The same for a pointer press that is ignored or resolves to a child. *)
Lemma handlePointerDown_silent_when_unchanged st event child st' :
  PointerEvent.target event ≠ this st →
  retarget st (PointerEvent.target event) = Some child →
  child ∈ children st →
  handlePointerDown st event = Some st' →
  selectedChildren st' = selectedChildren st →
  st' = st.
Proof.
  intros Hne Hre Hc Hp Hsame.
  destruct (PointerEvent.defaultPrevented event) eqn:Hdp.
  { rewrite handlePointerDown_defaultPrevented in Hp by done. by simplify_eq. }
  assert (children st' = children st) as Hch
    by (by eapply onlyMarkersChanged_handlePointerDown).
  assert (isSelected st' child = isSelected st child) as Heq.
  { pose proof (elem_of_selectedChildren st child) as H1.
    pose proof (elem_of_selectedChildren st' child) as H2.
    rewrite Hsame, Hch in H2.
    destruct (isSelected st child), (isSelected st' child); try done.
    - destruct (proj1 H2 (proj2 H1 (conj eq_refl Hc))) as [? _]. done.
    - destruct (proj1 H1 (proj2 H2 (conj eq_refl Hc))) as [? _]. done. }
  rewrite (handlePointerDown_resolved st event child) in Hp by done.
  destruct (_ && _), (isSelected st child) eqn:E;
    injection Hp as <-; try done; exfalso;
    unfold notifySelectionChange in Heq; rewrite isSelected_perform in Heq.
  - by rewrite isSelected_removeFromSelection, decide_True in Heq.
  - by rewrite isSelected_addToSelection, decide_True in Heq.
  - by rewrite isSelected_exclusive, decide_True in Heq.
Qed.

End notifications.

(** ** Single-selection mode *)

Section single_mode.
Implicit Types (st : SelectionElement) (lay : Layout) (el child : node).

Lemma atMostOneSelected_clear st : atMostOneSelected (clearSelection st).
Proof.
  unfold atMostOneSelected. rewrite selectedChildren_clearSelection. simpl. lia.
Qed.

Lemma atMostOneSelected_exclusive st el :
  NoDup (children st) →
  atMostOneSelected (addToSelection (clearSelection st) el).
Proof.
  intros Hnd. unfold atMostOneSelected.
  destruct (decide (el ∈ children st)) as [Hin|Hout].
  - by rewrite selectedChildren_exclusive.
  - rewrite selectedChildren_exclusive_outside by done. simpl. lia.
Qed.

Lemma atMostOneSelected_set_selectedIndex st value :
  NoDup (children st) → atMostOneSelected (set_selectedIndex st value).
Proof.
  intros Hnd. unfold set_selectedIndex.
  destruct (_ && _); [|apply atMostOneSelected_clear].
  destruct (item _ _); [|apply atMostOneSelected_clear].
  by apply atMostOneSelected_exclusive.
Qed.

Lemma atMostOneSelected_set_selectedChild st element :
  NoDup (children st) → atMostOneSelected (set_selectedChild st element).
Proof.
  intros Hnd. destruct element as [el|].
  - destruct (decide (el ∈ children st)) as [Hin|Hout].
    + rewrite set_selectedChild_inside by done.
      by apply atMostOneSelected_exclusive.
    + rewrite set_selectedChild_outside; [apply atMostOneSelected_clear|].
      by intros child [= ->].
  - rewrite set_selectedChild_outside; [apply atMostOneSelected_clear|done].
Qed.

Lemma selectedChildren_commit st n :
  selectedChildren (commit st n) = selectedChildren (set_selectedIndex st n).
Proof.
  unfold commit, notifySelectionChange, scrollSelectionIntoView.
  rewrite selectedChildren_perform. by destruct (selectedChild _).
Qed.

Lemma allowMultipeSelections_set_selectedIndex st value :
  allowMultipeSelections (set_selectedIndex st value)
  = allowMultipeSelections st.
Proof.
  unfold set_selectedIndex.
  destruct (_ && _); [|apply allowMultipeSelections_clearSelection].
  destruct (item _ _); simpl; apply allowMultipeSelections_clearSelection.
Qed.

Lemma allowMultipeSelections_set_selectedChild st element :
  allowMultipeSelections (set_selectedChild st element)
  = allowMultipeSelections st.
Proof.
  unfold set_selectedChild.
  generalize (children (clearSelection st)). intros rest.
  rewrite <- (allowMultipeSelections_clearSelection st).
  generalize (clearSelection st). intros st1.
  induction rest as [|c rest IH]; simpl; [done|]. by case_decide.
Qed.

Lemma allowMultipeSelections_commit st n :
  allowMultipeSelections (commit st n) = allowMultipeSelections st.
Proof.
  unfold commit, notifySelectionChange, scrollSelectionIntoView.
  destruct (selectedChild _); simpl;
    apply allowMultipeSelections_set_selectedIndex.
Qed.

(** One operation in single-selection mode. *)
Lemma single_mode_step st op :
  NoDup (children st) → allowMultipeSelections st = false →
  atMostOneSelected st →
  atMostOneSelected (step st op) ∧ allowMultipeSelections (step st op) = false.
Proof.
  intros Hnd Hmode Hone. unfold step.
  destruct op as [value|element|event lay|event]; simpl.
  - split; [by apply atMostOneSelected_set_selectedIndex|].
    by rewrite allowMultipeSelections_set_selectedIndex.
  - split; [by apply atMostOneSelected_set_selectedChild|].
    by rewrite allowMultipeSelections_set_selectedChild.
  - destruct (newSelectionIndex_cases st lay (KeyboardEvent.key event))
      as [H|(n & H & _)].
    + by rewrite (keyHandler_unclaimed _ _ _ H).
    + rewrite (keyHandler_claimed _ _ _ _ H). simpl.
      case_decide; [|done]. split.
      * unfold atMostOneSelected. rewrite selectedChildren_commit.
        by apply atMostOneSelected_set_selectedIndex.
      * by rewrite allowMultipeSelections_commit.
  - unfold handlePointerDown. case_decide; [done|].
    destruct (PointerEvent.defaultPrevented event); [done|].
    destruct (retarget st _) as [el|]; [|done]. simpl.
    rewrite Hmode. simpl. destruct (isSelected st el); [done|]. simpl.
    split.
    + unfold notifySelectionChange, atMostOneSelected.
      rewrite selectedChildren_perform.
      by apply atMostOneSelected_exclusive.
    + by rewrite allowMultipeSelections_clearSelection.
Qed.

(** C9. While multi-selection mode is off, "at most one child carries the
    selection marker" is preserved by every operation: starting from a
    state with at most one selected child, after each operation of any
    sequence of [selectedIndex] assignments, [selectedChild] assignments, key
    presses and pointer presses, at most one child is selected (and the mode
    is still off). *)
Theorem single_mode_at_most_one_selected st (ops : list Operation) :
  NoDup (children st) →
  allowMultipeSelections st = false →
  atMostOneSelected st →
  Forall (λ s, atMostOneSelected s ∧ allowMultipeSelections s = false)
         (run st ops).
Proof.
  revert st. induction ops as [|op ops IH]; intros st Hnd Hmode Hone; simpl.
  - constructor.
  - destruct (single_mode_step st op Hnd Hmode Hone) as [Hone' Hmode'].
    constructor; [done|]. apply IH; [|done..].
    by rewrite (proj1 (proj2 (onlyMarkersChanged_step st op))).
Qed.

Lemma single_mode_at_most_one_selected_witness :
  let st := Examples.list3_second in
  let ops := [PointerDown (Examples.press 5 false);
              KeyDown (Examples.keydown "ArrowDown") Examples.flat;
              PointerDown (Examples.press 3 true);
              SetSelectedIndex 7;
              SetSelectedChild (Some 3%nat)] in
  (NoDup (children st) ∧ allowMultipeSelections st = false ∧
   atMostOneSelected st) ∧
  Forall (λ s, atMostOneSelected s ∧ allowMultipeSelections s = false)
         (run st ops).
Proof.
  intros st ops.
  assert (NoDup (children st)) as Hnd by compute_done.
  assert (atMostOneSelected st) as Hone by (vm_compute; lia).
  split; [by split_and!|].
  exact (single_mode_at_most_one_selected st ops Hnd eq_refl Hone).
Defined.

End single_mode.

(** ** The listeners return *)

Section totality.
Implicit Types (st : SelectionElement) (el child : node).

(** A press that the control can receive has the host or an element with a
    parent as its target; the handler then returns. *)
Lemma handlePointerDown_total st (event : PointerEvent.t) :
  PointerEvent.target event = this st ∨
  is_Some (parentElement st !! PointerEvent.target event) →
  is_Some (handlePointerDown st event).
Proof.
  intros [Hhost|[parent Hp]].
  - rewrite handlePointerDown_host by done. eauto.
  - unfold handlePointerDown. case_decide; [eauto|].
    destruct (PointerEvent.defaultPrevented event); [eauto|].
    unfold retarget. rewrite Hp. case_decide; simpl;
      destruct (_ && _), (isSelected st _); eauto.
Qed.

Lemma attributeChangedCallback_total st attr (oldValue newValue : option string) :
  is_Some (attributeChangedCallback st attr oldValue newValue).
Proof.
  unfold attributeChangedCallback. case_decide; [|eauto].
  destruct newValue as [v|]; simpl; [eauto|].
  destruct (Z.gtb_spec (selectedIndex st) (-1)) as [Hgt|Hle]; simpl; [|eauto].
  destruct (selectedIndex_item st) as (child & Hitem & _); [lia|].
  rewrite children_clearSelection, Hitem. simpl. eauto.
Qed.

End totality.

(** ** The examples of the specification *)

Section examples.

Example examples_are_consistent :
  wf Examples.page ∧ wf Examples.gallery ∧ wf Examples.list3 ∧
  wf Examples.list3_second ∧ wf Examples.list3_last ∧ wf Examples.empty.
Proof. split_and!; compute_done. Qed.

(** [selectedIndex = 5] on a control with three children: the previous
    selection is cleared and nothing is selected. *)
Example selectedIndex_out_of_range :
  selectedChildren Examples.list3_second = [2%nat] ∧
  selectedChildren (set_selectedIndex Examples.list3_second 5) = [] ∧
  selectedIndex (set_selectedIndex Examples.list3_second 5) = -1.
Proof. by vm_compute. Qed.

(** ArrowDown and End at the last index change nothing. *)
Example arrow_down_at_last_index :
  let event := Examples.keydown "ArrowDown" in
  selectedIndex Examples.list3_last = 2 ∧
  keyHandler Examples.list3_last Examples.flat event
  = Some (Examples.list3_last, KeyboardEvent.preventDefault event).
Proof. by vm_compute. Qed.

(** A key the handler does not claim leaves the event as it was. *)
Example other_key_is_not_claimed :
  let event := Examples.keydown "a" in
  keyHandler Examples.list3_second Examples.flat event
  = Some (Examples.list3_second, event).
Proof. by vm_compute. Qed.

(** Re-pressing the only selected item: no change, no notification. *)
Example press_on_sole_selection :
  handlePointerDown Examples.list3_second (Examples.press 2 false)
  = Some Examples.list3_second.
Proof. by vm_compute. Qed.

(** PageUp from the last item of a page whose items all lie inside the
    window moves to index 0; PageDown without a selection is ignored. *)
Example page_keys :
  newSelectionIndex Examples.list3_last Examples.flat "PageUp" = Some (Some 0) ∧
  newSelectionIndex Examples.list3 Examples.flat "PageDown"
  = Some (Some (-1)) ∧
  keyHandler Examples.list3 Examples.flat (Examples.keydown "PageDown")
  = Some (Examples.list3,
          KeyboardEvent.preventDefault (Examples.keydown "PageDown")).
Proof. by vm_compute. Qed.

End examples.

(** * Further properties of the code *)

(** ** The getters *)

Section getters.
Implicit Types (st : SelectionElement) (el child : node).

(** X1. [get selectedIndex()] returns -1 or the index of a child; -1 exactly
    when no child carries the marker; and [i] exactly when the child at [i]
    carries it and no child before [i] does. *)
Theorem selectedIndex_getter st :
  -1 ≤ selectedIndex st < length_ st ∧
  (selectedIndex st = -1 ↔
   ∀ child, child ∈ children st → isSelected st child = false) ∧
  (∀ i : nat,
     selectedIndex st = Z.of_nat i ↔
     ∃ child, children st !! i = Some child ∧ isSelected st child = true ∧
              ∀ (j : nat) c, (j < i)%nat → children st !! j = Some c →
                             isSelected st c = false).
Proof.
  split; [|split].
  - apply selectedIndex_range.
  - rewrite selectedIndex_none. apply selectedChildren_nil.
  - intros i. split.
    + intros Hi. destruct (selectedIndex_lowest st) as (k & c & E & H); [lia|].
      assert (k = i) as -> by lia. by exists c.
    + intros (child & Hc & Hs & Hlow). by eapply selectedIndex_is_lowest.
Qed.

Lemma head_filter_first (P : node → Prop) `{∀ x, Decision (P x)}
    (l : list node) (i : nat) (c : node) :
  l !! i = Some c → P c →
  (∀ (j : nat) x, (j < i)%nat → l !! j = Some x → ¬ P x) →
  head (filter P l) = Some c.
Proof.
  revert i. induction l as [|a l IH]; intros i Hi Hc Hlow; [done|].
  rewrite filter_cons. destruct i as [|i]; simpl in Hi.
  - simplify_eq. by rewrite decide_True.
  - rewrite decide_False by (apply (Hlow 0%nat); [lia|done]).
    apply (IH i); [done..|]. intros j x Hj Hx.
    apply (Hlow (S j)); [lia|done].
Qed.

Lemma selectedChild_head st : selectedChild st = head (selectedChildren st).
Proof.
  unfold selectedChild.
  destruct (decide (selectedIndex st = -1)) as [Hnone|Hsome].
  - rewrite Hnone. simpl. apply selectedIndex_none in Hnone.
    by rewrite Hnone.
  - destruct (selectedIndex_lowest st Hsome) as (i & c & Hi & Hc & Hs & Hlow).
    rewrite Hi, (proj2 (Z.gtb_gt _ _)) by lia.
    unfold item. rewrite (proj2 (Z.ltb_ge _ _)) by lia.
    rewrite Nat2Z.id, Hc. symmetry.
    apply (head_filter_first _ _ i); [done|by apply Is_true_true|].
    intros j x Hj Hx. rewrite (Hlow j x Hj Hx). by intros [].
Qed.

(** X2. [get selectedChild()] is the first element of [selectedChildren],
    [null] exactly when that array is empty, and otherwise the child at
    [selectedIndex]. *)
Theorem selectedChild_is_first_selected st :
  selectedChild st = head (selectedChildren st) ∧
  (selectedChild st = None ↔ selectedChildren st = []) ∧
  (∀ child, selectedChild st = Some child →
            item (children st) (selectedIndex st) = Some child ∧
            isSelected st child = true).
Proof.
  split; [apply selectedChild_head|]. split.
  - rewrite selectedChild_head. destruct (selectedChildren st); by split.
  - intros child H. unfold selectedChild in H.
    destruct (Z.gtb_spec (selectedIndex st) (-1)) as [Hgt|]; [|done].
    split; [done|].
    destruct (selectedIndex_item st) as (c & Hc & Hs & _); [lia|].
    congruence.
Qed.

End getters.

(** ** The setters *)

Section setters.
Implicit Types (st : SelectionElement) (el child : node).

Lemma SelectionElement_eq st st' :
  this st' = this st → children st' = children st →
  parentElement st' = parentElement st → attributes st' = attributes st →
  allowMultipeSelections st' = allowMultipeSelections st →
  effects st' = effects st → st' = st.
Proof. destruct st, st'; simpl; intros; by subst. Qed.

Lemma attributes_foldl_remove (l : list node) st el name :
  attributes (foldl removeFromSelection st l) !! (el, name)
  = if decide (name = selectedAttributeName ∧ el ∈ l) then None
    else attributes st !! (el, name).
Proof.
  revert st. induction l as [|e l IH]; intros st; simpl.
  - rewrite decide_False; [done|]. intros [_ H]. by apply elem_of_nil in H.
  - rewrite IH. destruct (decide (name = selectedAttributeName ∧ el ∈ l))
      as [[-> Hin]|Hnot].
    + rewrite decide_True; [done|]. split; [done|by right].
    + simpl. destruct (decide ((e, selectedAttributeName) = (el, name)))
        as [[= -> <-]|Hne].
      * rewrite lookup_delete_eq. rewrite decide_True; [done|].
        split; [done|left].
      * rewrite lookup_delete_ne by done. rewrite decide_False; [done|].
        intros [-> [->|Hin]%elem_of_cons]; [done|]. apply Hnot. by split.
Qed.

(** What [#clearSelection] leaves in the attribute store. *)
Lemma attributes_clearSelection st el name :
  attributes (clearSelection st) !! (el, name)
  = if decide (name = selectedAttributeName ∧ el ∈ children st) then None
    else attributes st !! (el, name).
Proof.
  unfold clearSelection. rewrite attributes_foldl_remove.
  destruct (decide (name = selectedAttributeName ∧ el ∈ selectedChildren st))
    as [[-> Hin]|Hnot].
  - apply elem_of_selectedChildren in Hin as [_ Hin].
    rewrite decide_True; done.
  - destruct (decide (name = selectedAttributeName ∧ el ∈ children st))
      as [[-> Hin]|Hnot']; [|done].
    destruct (isSelected st el) eqn:E.
    + exfalso. apply Hnot. split; [done|].
      by apply elem_of_selectedChildren.
    + unfold isSelected in E. apply bool_decide_eq_false in E.
      by apply eq_None_not_Some.
Qed.

(** Two states that agree except on the markers of the children are cleared
    to the same state. *)
Lemma clearSelection_eq st st' :
  this st' = this st → children st' = children st →
  parentElement st' = parentElement st →
  allowMultipeSelections st' = allowMultipeSelections st →
  effects st' = effects st →
  (∀ el name, ¬ (name = selectedAttributeName ∧ el ∈ children st) →
              attributes st' !! (el, name) = attributes st !! (el, name)) →
  clearSelection st' = clearSelection st.
Proof.
  intros Ht Hc Hp Hm He Ha.
  destruct (onlyMarkersChanged_clear st) as (Ht1 & Hc1 & Hp1 & _).
  destruct (onlyMarkersChanged_clear st') as (Ht2 & Hc2 & Hp2 & _).
  apply SelectionElement_eq; try congruence.
  - apply map_eq. intros [el name]. rewrite !attributes_clearSelection, Hc.
    case_decide; [done|]. by apply Ha.
  - by rewrite !allowMultipeSelections_clearSelection.
  - by rewrite !effects_clearSelection.
Qed.

Lemma clearSelection_idemp st :
  clearSelection (clearSelection st) = clearSelection st.
Proof.
  unfold clearSelection at 1. by rewrite selectedChildren_clearSelection.
Qed.

Lemma clearSelection_exclusive st child :
  child ∈ children st →
  clearSelection (addToSelection (clearSelection st) child)
  = clearSelection st.
Proof.
  intros Hin. rewrite <- (clearSelection_idemp st) at 2.
  apply clearSelection_eq; try done.
  intros el name Hnot. simpl. rewrite children_clearSelection in Hnot.
  rewrite lookup_insert_ne; [done|]. intros [= -> <-]. by apply Hnot.
Qed.

Lemma clearSelection_set_selectedIndex st value :
  clearSelection (set_selectedIndex st value) = clearSelection st.
Proof.
  unfold set_selectedIndex.
  destruct (_ && _); [|apply clearSelection_idemp].
  destruct (item _ _) as [child|] eqn:E; [|apply clearSelection_idemp].
  apply clearSelection_exclusive.
  apply item_Some in E as [_ E]. rewrite children_clearSelection in E.
  by eapply list_elem_of_lookup_2.
Qed.

Lemma clearSelection_set_selectedChild st element :
  clearSelection (set_selectedChild st element) = clearSelection st.
Proof.
  destruct element as [el|].
  - destruct (decide (el ∈ children st)) as [Hin|Hout].
    + rewrite set_selectedChild_inside by done.
      by apply clearSelection_exclusive.
    + rewrite set_selectedChild_outside; [apply clearSelection_idemp|].
      by intros child [= ->].
  - rewrite set_selectedChild_outside; [apply clearSelection_idemp|done].
Qed.

Lemma set_selectedIndex_from_cleared st st' value :
  clearSelection st' = clearSelection st →
  set_selectedIndex st' value = set_selectedIndex st value.
Proof. intros H. unfold set_selectedIndex. by rewrite H. Qed.

Lemma set_selectedChild_from_cleared st st' element :
  clearSelection st' = clearSelection st →
  set_selectedChild st' element = set_selectedChild st element.
Proof. intros H. unfold set_selectedChild. by rewrite H. Qed.

(** X3. Assigning [selectedIndex] and reading the selection back.  For an
    index of a child, the getter returns that index, [selectedChild] is the
    child at that index and it is the only selected child; for any other
    value (negative, or [length] and above) the getter returns -1,
    [selectedChild] is [null] and no child is selected. *)
Theorem set_selectedIndex_then_get st (value : Z) :
  NoDup (children st) →
  let st' := set_selectedIndex st value in
  (∀ child, item (children st) value = Some child →
     selectedIndex st' = value ∧ selectedChild st' = Some child ∧
     selectedChildren st' = [child]) ∧
  (item (children st) value = None →
     selectedIndex st' = -1 ∧ selectedChild st' = None ∧
     selectedChildren st' = []).
Proof.
  intros Hnd st'. split.
  - intros child Hitem. unfold st'.
    rewrite (set_selectedIndex_inside _ _ _ Hitem).
    apply item_Some in Hitem as [H0 Hl].
    assert (child ∈ children st) by (by eapply list_elem_of_lookup_2).
    assert (selectedChildren (addToSelection (clearSelection st) child)
            = [child]) as Hsel by (by apply selectedChildren_exclusive).
    split_and!; [|by rewrite selectedChild_head, Hsel|done].
    rewrite (selectedIndex_exclusive st child (Z.to_nat value)) by done. lia.
  - intros Hnone. unfold st'.
    assert (¬ 0 ≤ value < length_ st) as Hout.
    { intros Hr. destruct (item_is_Some (children st) value Hr) as [c Hc].
      congruence. }
    rewrite (set_selectedIndex_outside _ _ Hout).
    assert (selectedChildren (clearSelection st) = []) as Hsel
      by apply selectedChildren_clearSelection.
    split_and!; [by apply selectedIndex_none| |done].
    by rewrite selectedChild_head, Hsel.
Qed.

Lemma set_selectedIndex_then_get_witness :
  NoDup (children Examples.gallery) ∧
  selectedIndex (set_selectedIndex Examples.gallery 3) = 3 ∧
  selectedChild (set_selectedIndex Examples.gallery 3) = Some 4%nat ∧
  selectedChildren (set_selectedIndex Examples.gallery 3) = [4%nat].
Proof.
  assert (NoDup (children Examples.gallery)) as Hnd by compute_done.
  split; [exact Hnd|].
  apply (proj1 (set_selectedIndex_then_get Examples.gallery 3 Hnd)).
  reflexivity.
Defined.

(** X4. The two setters agree: assigning the child at index [i] to
    [selectedChild] gives the same state as assigning [i] to
    [selectedIndex]; the getters then return that child and that index. *)
Theorem set_selectedChild_is_set_selectedIndex st (i : nat) child :
  NoDup (children st) → children st !! i = Some child →
  set_selectedChild st (Some child) = set_selectedIndex st (Z.of_nat i) ∧
  selectedChild (set_selectedChild st (Some child)) = Some child ∧
  selectedIndex (set_selectedChild st (Some child)) = Z.of_nat i ∧
  selectedChildren (set_selectedChild st (Some child)) = [child].
Proof.
  intros Hnd Hi.
  assert (item (children st) (Z.of_nat i) = Some child) as Hitem.
  { apply item_Some. rewrite Nat2Z.id. split; [lia|done]. }
  assert (child ∈ children st) as Hin by (by eapply list_elem_of_lookup_2).
  rewrite (set_selectedChild_inside _ _ Hin).
  rewrite (set_selectedIndex_inside _ _ _ Hitem).
  assert (selectedChildren (addToSelection (clearSelection st) child)
          = [child]) as Hsel by (by apply selectedChildren_exclusive).
  split_and!; [done| |by apply selectedIndex_exclusive|done].
  by rewrite selectedChild_head, Hsel.
Qed.

Lemma set_selectedChild_is_set_selectedIndex_witness :
  let st := Examples.gallery in
  (NoDup (children st) ∧ children st !! 2%nat = Some 3%nat) ∧
  set_selectedChild st (Some 3%nat) = set_selectedIndex st 2.
Proof.
  intros st.
  assert (NoDup (children st)) as Hnd by compute_done.
  assert (children st !! 2%nat = Some 3%nat) as Hi by reflexivity.
  split; [by split|].
  apply (proj1 (set_selectedChild_is_set_selectedIndex st 2 3 Hnd Hi)).
Defined.

(** X5. The last assignment wins: after either setter, an assignment
    through either setter gives the state it would have given without the
    earlier one. *)
Theorem last_assignment_wins st (v1 v2 : Z) (e1 e2 : option node) :
  set_selectedIndex (set_selectedIndex st v1) v2 = set_selectedIndex st v2 ∧
  set_selectedIndex (set_selectedChild st e1) v2 = set_selectedIndex st v2 ∧
  set_selectedChild (set_selectedIndex st v1) e2 = set_selectedChild st e2 ∧
  set_selectedChild (set_selectedChild st e1) e2 = set_selectedChild st e2.
Proof.
  split_and!.
  - apply set_selectedIndex_from_cleared, clearSelection_set_selectedIndex.
  - apply set_selectedIndex_from_cleared, clearSelection_set_selectedChild.
  - apply set_selectedChild_from_cleared, clearSelection_set_selectedIndex.
  - apply set_selectedChild_from_cleared, clearSelection_set_selectedChild.
Qed.

End setters.

(** ** Markers outside the children *)

Section outside.
Implicit Types (st : SelectionElement) (lay : Layout) (el child : node).

Lemma isSelected_clearSelection_outside st el :
  el ∉ children st → isSelected (clearSelection st) el = isSelected st el.
Proof.
  intros H. rewrite isSelected_clearSelection.
  rewrite bool_decide_eq_true_2 by done. apply andb_true_r.
Qed.

Lemma isSelected_exclusive_outside st el child :
  el ∉ children st → child ∈ children st →
  isSelected (addToSelection (clearSelection st) child) el = isSelected st el.
Proof.
  intros Hout Hin. rewrite isSelected_addToSelection.
  rewrite decide_False by (intros ->; done).
  by apply isSelected_clearSelection_outside.
Qed.

Lemma isSelected_set_selectedIndex_outside st el value :
  el ∉ children st →
  isSelected (set_selectedIndex st value) el = isSelected st el.
Proof.
  intros Hout. unfold set_selectedIndex.
  destruct (_ && _); [|by apply isSelected_clearSelection_outside].
  destruct (item _ _) as [child|] eqn:E;
    [|by apply isSelected_clearSelection_outside].
  apply isSelected_exclusive_outside; [done|].
  apply item_Some in E as [_ E]. rewrite children_clearSelection in E.
  by eapply list_elem_of_lookup_2.
Qed.

Lemma isSelected_set_selectedChild_outside st el element :
  el ∉ children st →
  isSelected (set_selectedChild st element) el = isSelected st el.
Proof.
  intros Hout. destruct element as [e|].
  - destruct (decide (e ∈ children st)) as [Hin|Hnot].
    + rewrite set_selectedChild_inside by done.
      by apply isSelected_exclusive_outside.
    + rewrite set_selectedChild_outside;
        [by apply isSelected_clearSelection_outside|].
      by intros child [= ->].
  - rewrite set_selectedChild_outside;
      [by apply isSelected_clearSelection_outside|done].
Qed.

Lemma isSelected_commit st n el :
  isSelected (commit st n) el = isSelected (set_selectedIndex st n) el.
Proof.
  unfold commit, notifySelectionChange, scrollSelectionIntoView.
  rewrite isSelected_perform. by destruct (selectedChild _).
Qed.

(** X6. The setters, the key handler and the change of the [multiple]
    attribute read and write the marker of children only: on an element
    that is not a child of the control the marker stays as it is, set or
    not. *)
Theorem markers_outside_children_persist st el :
  el ∉ children st →
  (∀ value, isSelected (set_selectedIndex st value) el = isSelected st el) ∧
  (∀ element, isSelected (set_selectedChild st element) el = isSelected st el) ∧
  (∀ lay event st' event',
     keyHandler st lay event = Some (st', event') →
     isSelected st' el = isSelected st el) ∧
  (∀ attr oldValue newValue st',
     attributeChangedCallback st attr oldValue newValue = Some st' →
     isSelected st' el = isSelected st el).
Proof.
  intros Hout. split_and!.
  - intros value. by apply isSelected_set_selectedIndex_outside.
  - intros element. by apply isSelected_set_selectedChild_outside.
  - intros lay event st' event' Hk.
    destruct (newSelectionIndex_cases st lay (KeyboardEvent.key event))
      as [H|(n & H & _)].
    + rewrite (keyHandler_unclaimed _ _ _ H) in Hk. by simplify_eq.
    + rewrite (keyHandler_claimed _ _ _ _ H) in Hk.
      case_decide; simplify_eq; [|done].
      rewrite isSelected_commit. by apply isSelected_set_selectedIndex_outside.
  - intros attr oldValue newValue st'. unfold attributeChangedCallback.
    case_decide; [|by intros [= <-]].
    destruct newValue as [v|]; simpl; [by intros [= <-]|].
    destruct (selectedIndex st >? -1); simpl; [|by intros [= <-]].
    destruct (item _ _) as [child|] eqn:E; simpl; [|done].
    intros [= <-].
    change (isSelected (addToSelection (clearSelection st) child) el
            = isSelected st el).
    apply isSelected_exclusive_outside; [done|].
    apply item_Some in E as [_ E]. rewrite children_clearSelection in E.
    by eapply list_elem_of_lookup_2.
Qed.

Lemma markers_outside_children_persist_witness :
  let st := Examples.control 0 [1; 2; 3]%nat [2; 4]%nat
              [(4, 1); (5, 4)]%nat false in
  (4%nat ∉ children st) ∧
  isSelected st 4 = true ∧
  isSelected (set_selectedIndex st (-1)) 4 = true ∧
  isSelected (set_selectedChild st None) 4 = true.
Proof.
  intros st.
  assert (4%nat ∉ children st) as Hout by compute_done.
  destruct (markers_outside_children_persist st 4%nat Hout)
    as (Hindex & Hchild & _).
  split; [exact Hout|]. split; [reflexivity|].
  rewrite Hindex, Hchild. split; reflexivity.
Defined.

End outside.

(** ** The key handler as a whole *)

Section key_handler.
Implicit Types (st : SelectionElement) (lay : Layout) (el child : node).
Implicit Types (event : KeyboardEvent.t) (key : string).

Lemma newSelectionIndex_claimed st lay key :
  key ∈ claimedKeys → ∃ n, newSelectionIndex st lay key = Some (Some n).
Proof.
  intros Hkey.
  destruct (newSelectionIndex_cases st lay key) as [H|(n & H & _)]; [|eauto].
  exfalso. unfold claimedKeys in Hkey. revert H.
  destruct (getPreviousNonvisibleChildIndex_range st lay) as (r1 & Hr1 & _).
  destruct (getNextNonvisibleChildIndex_range st lay) as (r2 & Hr2 & _).
  repeat (apply elem_of_cons in Hkey as [->|Hkey]);
    [..|by apply elem_of_nil in Hkey];
    unfold newSelectionIndex; simpl; rewrite ?Hr1, ?Hr2; done.
Qed.

Lemma newSelectionIndex_not_claimed st lay key :
  key ∉ claimedKeys → newSelectionIndex st lay key = Some None.
Proof.
  intros Hkey. unfold claimedKeys in Hkey.
  rewrite !not_elem_of_cons in Hkey.
  destruct Hkey as (H1 & H2 & H3 & H4 & H5 & H6 & H7 & H8 & _).
  unfold newSelectionIndex.
  rewrite (proj2 (String.eqb_neq _ _) H1), (proj2 (String.eqb_neq _ _) H2),
    (proj2 (String.eqb_neq _ _) H3), (proj2 (String.eqb_neq _ _) H4),
    (proj2 (String.eqb_neq _ _) H5), (proj2 (String.eqb_neq _ _) H6),
    (proj2 (String.eqb_neq _ _) H7), (proj2 (String.eqb_neq _ _) H8).
  done.
Qed.

(** X7. The key handler claims exactly eight keys.  For Home, End, PageUp,
    PageDown and the four arrows it returns with the event's default
    prevented, whether or not the selection moves; for every other key it
    returns with the event and the element untouched.  It never raises. *)
Theorem keyHandler_claims_eight_keys st lay event :
  ∃ st' event',
    keyHandler st lay event = Some (st', event') ∧
    (KeyboardEvent.key event ∈ claimedKeys →
     event' = KeyboardEvent.preventDefault event) ∧
    (KeyboardEvent.key event ∉ claimedKeys → st' = st ∧ event' = event).
Proof.
  destruct (decide (KeyboardEvent.key event ∈ claimedKeys)) as [Hin|Hout].
  - destruct (newSelectionIndex_claimed st lay _ Hin) as [n Hn].
    rewrite (keyHandler_claimed _ _ _ _ Hn).
    eexists _, _. split; [done|]. split; [done|]. by intros ?.
  - pose proof (newSelectionIndex_not_claimed st lay _ Hout) as Hn.
    rewrite (keyHandler_unclaimed _ _ _ Hn).
    eexists _, _. split; [done|]. split; [by intros ?|done].
Qed.

Lemma commit_empty st n :
  children st = [] → commit st n = notifySelectionChange st.
Proof.
  intros Hnil.
  assert (clearSelection st = st) as Hclear.
  { unfold clearSelection, selectedChildren. by rewrite Hnil. }
  assert (set_selectedIndex st n = st) as Hset.
  { rewrite set_selectedIndex_outside; [done|].
    unfold length_. rewrite Hnil. simpl. lia. }
  unfold commit. rewrite Hset.
  assert (scrollSelectionIntoView st = st) as ->; [|done].
  unfold scrollSelectionIntoView. rewrite selectedChild_head.
  unfold selectedChildren. by rewrite Hnil.
Qed.

(** X8. What a key press does to the selection, in either mode.  Either
    nothing changes and nothing is dispatched; or the child at a new index,
    different from the [selectedIndex] before, becomes the only selected
    child, [scrollIntoView] is requested for it, and [change] then [input]
    are dispatched; or the key is [Home] on a control without children, and
    [change] and [input] are dispatched with no attribute changed. *)
Theorem keyHandler_outcome st lay event st' event' :
  NoDup (children st) →
  keyHandler st lay event = Some (st', event') →
  st' = st ∨
  (∃ (i : nat) child,
     children st !! i = Some child ∧ Z.of_nat i ≠ selectedIndex st ∧
     selectedChildren st' = [child] ∧ selectedIndex st' = Z.of_nat i ∧
     effects st'
     = (effects st ++ [ScrollIntoView child; DispatchEvent "change";
                       DispatchEvent "input"])%list) ∨
  (KeyboardEvent.key event = "Home"%string ∧ children st = [] ∧
   st' = notifySelectionChange st).
Proof.
  intros Hnd Hk.
  destruct (newSelectionIndex_cases st lay (KeyboardEvent.key event))
    as [H|(n & H & Hn)].
  - rewrite (keyHandler_unclaimed _ _ _ H) in Hk. left. by simplify_eq.
  - rewrite (keyHandler_claimed _ _ _ _ H) in Hk.
    destruct (decide (n ≠ selectedIndex st)) as [Hne|];
      [|left; by simplify_eq].
    injection Hk as <- <-. right.
    destruct Hn as [?|[Hrange|(Hhome & -> & Hnil)]]; [done| |].
    + left. destruct (item_is_Some (children st) n Hrange) as [child Hitem].
      apply item_Some in Hitem as [H0 Hitem].
      exists (Z.to_nat n), child.
      destruct (commit_inside st (Z.to_nat n) child Hnd Hitem)
        as (Hsel & Hidx & Heff).
      rewrite Z2Nat.id in * by done. done.
    + right. split_and!; [done..|]. by apply commit_empty.
Qed.

Lemma keyHandler_outcome_witness :
  let st := Examples.gallery in
  let event := Examples.keydown "End" in
  NoDup (children st) ∧
  ∃ st', keyHandler st Examples.flat event
         = Some (st', KeyboardEvent.preventDefault event) ∧
         selectedChildren st = [2; 4; 5]%nat ∧
         selectedChildren st' = [5%nat].
Proof.
  intros st event.
  assert (NoDup (children st)) as Hnd by compute_done.
  split; [exact Hnd|].
  destruct (keyHandler st Examples.flat event) as [[st' event']|] eqn:Hk;
    [|by vm_compute in Hk].
  assert (event' = KeyboardEvent.preventDefault event) as ->
    by (by vm_compute in Hk; injection Hk as _ <-).
  exists st'. split; [reflexivity|]. split; [reflexivity|].
  destruct (keyHandler_outcome st Examples.flat event st' _ Hnd Hk)
    as [->|[(i & child & Hi & Hne & Hsel & Hidx & _)|(Hhome & _)]].
  - by vm_compute in Hk.
  - rewrite Hsel. f_equal.
    assert (selectedIndex st' = 4) as E
      by (by vm_compute in Hk; injection Hk as <-).
    assert (i = 4%nat) as -> by lia. by vm_compute in Hi; injection Hi.
  - discriminate Hhome.
Defined.

End key_handler.

(** ** Home, End and the page keys *)

Section jumps.
Implicit Types (st : SelectionElement) (lay : Layout) (el child : node).
Implicit Types (event : KeyboardEvent.t) (key : string).

(** A claimed key that asks for the index of a child, different from the
    current index: that child becomes the only selected child. *)
Lemma keyHandler_selects st lay event (i : nat) child :
  NoDup (children st) →
  newSelectionIndex st lay (KeyboardEvent.key event) = Some (Some (Z.of_nat i)) →
  children st !! i = Some child → Z.of_nat i ≠ selectedIndex st →
  ∃ st', keyHandler st lay event
         = Some (st', KeyboardEvent.preventDefault event) ∧
         selectedChildren st' = [child] ∧ selectedIndex st' = Z.of_nat i.
Proof.
  intros Hnd Hn Hi Hne. rewrite (keyHandler_claimed _ _ _ _ Hn).
  rewrite decide_True by done. eexists. split; [done|].
  destruct (commit_inside st i child Hnd Hi) as (Hsel & Hidx & _). done.
Qed.

Lemma keyHandler_stays st lay event :
  newSelectionIndex st lay (KeyboardEvent.key event)
  = Some (Some (selectedIndex st)) →
  keyHandler st lay event = Some (st, KeyboardEvent.preventDefault event).
Proof.
  intros Hn. rewrite (keyHandler_claimed _ _ _ _ Hn).
  by rewrite decide_False by (intros H; by apply H).
Qed.

(** X9. Home and End.  On a control with children, Home leaves the first
    child as the only selected child and End the last one, unless that
    child already is at the lowest selected index, in which case nothing
    changes (other selected children stay selected).  End on a control
    without children changes nothing and dispatches nothing. *)
Theorem home_and_end_keys st lay event :
  NoDup (children st) →
  (KeyboardEvent.key event = "Home"%string →
   ∀ first, head (children st) = Some first →
     ∃ st', keyHandler st lay event
            = Some (st', KeyboardEvent.preventDefault event) ∧
            selectedIndex st' = 0 ∧
            (selectedIndex st = 0 → st' = st) ∧
            (selectedIndex st ≠ 0 → selectedChildren st' = [first])) ∧
  (KeyboardEvent.key event = "End"%string →
   ∀ final, last (children st) = Some final →
     ∃ st', keyHandler st lay event
            = Some (st', KeyboardEvent.preventDefault event) ∧
            selectedIndex st' = length_ st - 1 ∧
            (selectedIndex st = length_ st - 1 → st' = st) ∧
            (selectedIndex st ≠ length_ st - 1 →
             selectedChildren st' = [final])) ∧
  (KeyboardEvent.key event = "End"%string → children st = [] →
   keyHandler st lay event = Some (st, KeyboardEvent.preventDefault event)).
Proof.
  intros Hnd. split_and!.
  - intros Hkey first Hfirst.
    assert (newSelectionIndex st lay (KeyboardEvent.key event)
            = Some (Some (Z.of_nat 0))) as Hn by (by rewrite Hkey).
    assert (children st !! 0%nat = Some first) as H0
      by (by rewrite <- head_lookup).
    destruct (decide (selectedIndex st = 0)) as [E|Hne].
    + exists st. split; [|done]. apply keyHandler_stays. by rewrite E.
    + destruct (keyHandler_selects st lay event 0 first Hnd Hn H0)
        as (st' & Hk & Hsel & Hidx); [simpl; lia|].
      exists st'. split_and!; try done.
  - intros Hkey final Hfinal. rewrite last_lookup in Hfinal.
    assert (0 < length (children st))%nat as Hlen
      by (apply lookup_lt_Some in Hfinal; lia).
    assert (length_ st - 1 = Z.of_nat (pred (length (children st)))) as Elast
      by (unfold length_; lia).
    assert (newSelectionIndex st lay (KeyboardEvent.key event)
            = Some (Some (length_ st - 1))) as Hn by (by rewrite Hkey).
    destruct (decide (selectedIndex st = length_ st - 1)) as [E|Hne].
    + exists st. split; [|done]. apply keyHandler_stays. by rewrite E.
    + rewrite Elast in Hn.
      destruct (keyHandler_selects st lay event _ final Hnd Hn Hfinal)
        as (st' & Hk & Hsel & Hidx); [lia|].
      exists st'. split_and!; [done|lia|intros E; lia|done].
  - intros Hkey Hnil. apply keyHandler_stays. rewrite Hkey.
    pose proof (selectedIndex_range st) as Hr.
    unfold newSelectionIndex. simpl. do 2 f_equal.
    unfold length_ in *. rewrite Hnil in *. simpl in *. lia.
Qed.

Lemma home_and_end_keys_witness :
  let st := Examples.gallery in
  let event := Examples.keydown "Home" in
  NoDup (children st) ∧
  ∃ st', keyHandler st Examples.flat event
         = Some (st', KeyboardEvent.preventDefault event) ∧
         selectedIndex st' = 0 ∧ selectedChildren st' = [1%nat].
Proof.
  intros st event.
  assert (NoDup (children st)) as Hnd by compute_done.
  split; [exact Hnd|].
  destruct (proj1 (home_and_end_keys st Examples.flat event Hnd)
              eq_refl 1%nat eq_refl) as (st' & Hk & Hidx & _ & Hsel).
  exists st'. split; [exact Hk|]. split; [exact Hidx|].
  apply Hsel. by vm_compute.
Defined.

(** X10. The page keys move in their direction or not at all.  PageDown
    changes nothing when no child is selected or the last child is at the
    lowest selected index; otherwise it moves to the index the forward scan
    returns, which is above the current one.  PageUp changes nothing when no
    child is selected or the first child is selected; otherwise it moves to
    the index the backward scan returns, which is below the current one. *)
Theorem page_keys_move_or_stay st lay event :
  NoDup (children st) →
  (KeyboardEvent.key event = "PageDown"%string →
   ∃ st', keyHandler st lay event
          = Some (st', KeyboardEvent.preventDefault event) ∧
          (selectedIndex st = -1 ∨ selectedIndex st = length_ st - 1 →
           st' = st) ∧
          (0 ≤ selectedIndex st < length_ st - 1 →
           getNextNonvisibleChildIndex st lay = Some (selectedIndex st') ∧
           selectedIndex st < selectedIndex st')) ∧
  (KeyboardEvent.key event = "PageUp"%string →
   ∃ st', keyHandler st lay event
          = Some (st', KeyboardEvent.preventDefault event) ∧
          (selectedIndex st ≤ 0 → st' = st) ∧
          (0 < selectedIndex st →
           getPreviousNonvisibleChildIndex st lay = Some (selectedIndex st') ∧
           selectedIndex st' < selectedIndex st)).
Proof.
  intros Hnd. pose proof (selectedIndex_range st) as Hrange. split.
  - intros Hkey.
    destruct (decide (selectedIndex st = -1)) as [Hnone|Hsome].
    { exists st. split; [|split; [done|lia]]. apply keyHandler_stays.
      rewrite Hkey. unfold newSelectionIndex. simpl.
      rewrite (getNextNonvisibleChildIndex_none _ _ Hnone). simpl.
      by rewrite Hnone. }
    destruct (selectedIndex_lowest st Hsome) as (i & sel & Hi & Hsel & _).
    destruct (getNextNonvisibleChildIndex_scan st lay i sel Hi Hsel)
      as (r & Hr & Hscan).
    assert (Z.of_nat i < length_ st) as Hlt by lia.
    assert ((r = length_ st - 1 ∨ Z.of_nat i < r < length_ st) ∧
            ∃ c : nat, r = Z.of_nat c ∧ is_Some (children st !! c))
      as [Hr_range (c & -> & [child Hc])].
    { destruct Hscan as [(c & child & -> & Hic & Hc & _)|[-> _]].
      - pose proof (lookup_lt_Some _ _ _ Hc). unfold length_.
        split; [lia|]. exists c. eauto.
      - split; [by left|]. exists (Z.to_nat (length_ st - 1)).
        split; [lia|]. apply lookup_lt_is_Some. unfold length_ in *. lia. }
    assert (newSelectionIndex st lay (KeyboardEvent.key event)
            = Some (Some (Z.of_nat c))) as Hn.
    { rewrite Hkey. unfold newSelectionIndex. simpl. rewrite Hr. simpl.
      by rewrite (proj2 (Z.gtb_gt _ _)) by lia. }
    destruct (decide (Z.of_nat c = selectedIndex st)) as [E|Hne].
    + exists st. split; [apply keyHandler_stays; by rewrite <- E|].
      split; [done|]. lia.
    + destruct (keyHandler_selects st lay event c child Hnd Hn Hc Hne)
        as (st' & Hk & _ & Hidx).
      exists st'. split; [done|]. rewrite Hidx. split; [lia|].
      intros _. split; [done|]. lia.
  - intros Hkey.
    destruct (decide (selectedIndex st = -1)) as [Hnone|Hsome].
    { exists st. split; [|split; [done|lia]]. apply keyHandler_stays.
      rewrite Hkey. unfold newSelectionIndex. simpl.
      rewrite (getPreviousNonvisibleChildIndex_none _ _ Hnone). simpl.
      by rewrite Hnone. }
    destruct (selectedIndex_lowest st Hsome) as (i & sel & Hi & Hsel & _).
    destruct (getPreviousNonvisibleChildIndex_scan st lay i sel Hi Hsel)
      as (r & Hr & Hscan).
    assert ((r = 0 ∨ 0 ≤ r < Z.of_nat i) ∧
            ∃ c : nat, r = Z.of_nat c ∧ is_Some (children st !! c))
      as [Hr_range (c & -> & [child Hc])].
    { destruct Hscan as [(c & child & -> & Hic & Hc & _)|[-> _]].
      - split; [lia|]. exists c. eauto.
      - split; [by left|]. exists 0%nat. split; [done|].
        apply lookup_lt_is_Some. apply lookup_lt_Some in Hsel. lia. }
    assert (newSelectionIndex st lay (KeyboardEvent.key event)
            = Some (Some (Z.of_nat c))) as Hn.
    { rewrite Hkey. unfold newSelectionIndex. simpl. rewrite Hr. simpl.
      by rewrite (proj2 (Z.gtb_gt _ _)) by lia. }
    destruct (decide (Z.of_nat c = selectedIndex st)) as [E|Hne].
    + exists st. split; [apply keyHandler_stays; by rewrite <- E|].
      split; [done|]. lia.
    + destruct (keyHandler_selects st lay event c child Hnd Hn Hc Hne)
        as (st' & Hk & _ & Hidx).
      exists st'. split; [done|]. rewrite Hidx. split; [lia|].
      intros _. split; [done|]. lia.
Qed.

Lemma page_keys_move_or_stay_witness :
  let st := Examples.page in
  let event := Examples.keydown "PageDown" in
  NoDup (children st) ∧
  ∃ st', keyHandler st Examples.pageLayout event
         = Some (st', KeyboardEvent.preventDefault event) ∧
         selectedIndex st = 0 ∧ selectedIndex st' = 2.
Proof.
  intros st event.
  assert (NoDup (children st)) as Hnd by compute_done.
  split; [exact Hnd|].
  destruct (proj1 (page_keys_move_or_stay st Examples.pageLayout event Hnd)
              eq_refl) as (st' & Hk & _ & Hmove).
  exists st'. split; [exact Hk|]. split; [reflexivity|].
  destruct Hmove as [Hscan _]; [by vm_compute|].
  assert (getNextNonvisibleChildIndex st Examples.pageLayout = Some 2) as E
    by reflexivity.
  rewrite E in Hscan. by injection Hscan.
Defined.

End jumps.

(** ** Arrow keys, pressed again and again *)

Section arrows_repeated.
Implicit Types (st : SelectionElement) (lay : Layout) (el child : node).
Implicit Types (event : KeyboardEvent.t) (key : string).

Lemma step_KeyDown_moves_to st lay event n :
  NoDup (children st) →
  newSelectionIndex st lay (KeyboardEvent.key event) = Some (Some n) →
  n = selectedIndex st ∨ 0 ≤ n < length_ st →
  selectedIndex (step st (KeyDown event lay)) = n.
Proof.
  intros Hnd Hn Hr.
  destruct (keyHandler_moves_to st lay event n Hnd Hn Hr) as (st' & Hk & Hi).
  unfold step. simpl. by rewrite Hk.
Qed.

Lemma step_arrow_forward st lay event :
  NoDup (children st) →
  KeyboardEvent.key event = "ArrowRight"%string ∨
  KeyboardEvent.key event = "ArrowDown"%string →
  selectedIndex (step st (KeyDown event lay))
  = Z.min (selectedIndex st + 1) (length_ st - 1).
Proof.
  intros Hnd Hkey. pose proof (selectedIndex_range st).
  apply step_KeyDown_moves_to; [done| |lia].
  by apply newSelectionIndex_arrow_forward.
Qed.

Lemma step_arrow_backward st lay event :
  NoDup (children st) →
  KeyboardEvent.key event = "ArrowLeft"%string ∨
  KeyboardEvent.key event = "ArrowUp"%string →
  selectedIndex (step st (KeyDown event lay))
  = if decide (selectedIndex st = -1) then -1
    else Z.max (selectedIndex st - 1) 0.
Proof.
  intros Hnd Hkey. pose proof (selectedIndex_range st).
  apply step_KeyDown_moves_to; [done| |case_decide; lia].
  by apply newSelectionIndex_arrow_backward.
Qed.

Lemma children_step st op : children (step st op) = children st.
Proof. apply onlyMarkersChanged_step. Qed.

(** X11. Arrow presses add up.  After [n] presses of ArrowDown (or
    ArrowRight) the lowest selected index is [selectedIndex + n], clamped
    to [length - 1]; after [n] presses of ArrowUp (or ArrowLeft) it is
    [selectedIndex - n], clamped to 0, or still -1 when no child was
    selected.  From a selected child that is not the last, ArrowDown
    followed by ArrowUp comes back to the same index. *)
Theorem arrow_presses_add_up st event (lays : list Layout) :
  NoDup (children st) →
  let after := foldl step st (KeyDown event <$> lays) in
  let n := Z.of_nat (length lays) in
  (KeyboardEvent.key event = "ArrowRight"%string ∨
   KeyboardEvent.key event = "ArrowDown"%string →
   selectedIndex after = Z.min (selectedIndex st + n) (length_ st - 1)) ∧
  (KeyboardEvent.key event = "ArrowLeft"%string ∨
   KeyboardEvent.key event = "ArrowUp"%string →
   selectedIndex after
   = if decide (selectedIndex st = -1) then -1
     else Z.max (selectedIndex st - n) 0) ∧
  (∀ lay lay', 0 ≤ selectedIndex st < length_ st - 1 →
     selectedIndex
       (step (step st (KeyDown (Examples.keydown "ArrowDown") lay))
             (KeyDown (Examples.keydown "ArrowUp") lay'))
     = selectedIndex st).
Proof.
  intros Hnd. simpl. split_and!.
  - intros Hkey. revert st Hnd.
    induction lays as [|lay lays IH]; intros st Hnd.
    + pose proof (selectedIndex_range st). simpl. lia.
    + simpl foldl. rewrite IH by (by rewrite children_step).
      rewrite (step_arrow_forward st lay event Hnd Hkey).
      pose proof (selectedIndex_range st).
      unfold length_. rewrite children_step. simpl length. lia.
  - intros Hkey. revert st Hnd.
    induction lays as [|lay lays IH]; intros st Hnd.
    + pose proof (selectedIndex_range st). simpl. case_decide; lia.
    + simpl foldl. rewrite IH by (by rewrite children_step).
      rewrite (step_arrow_backward st lay event Hnd Hkey).
      pose proof (selectedIndex_range st).
      simpl length. repeat case_decide; lia.
  - intros lay lay' Hr.
    rewrite step_arrow_backward;
      [|by rewrite children_step|by right].
    rewrite step_arrow_forward; [|done|by right].
    case_decide; lia.
Qed.

Lemma arrow_presses_add_up_witness :
  let st := Examples.gallery in
  let event := Examples.keydown "ArrowDown" in
  let lays := [Examples.flat; Examples.flat] in
  NoDup (children st) ∧
  selectedIndex st = 1 ∧
  selectedIndex (foldl step st (KeyDown event <$> lays)) = 3.
Proof.
  intros st event lays.
  assert (NoDup (children st)) as Hnd by compute_done.
  split; [exact Hnd|]. split; [reflexivity|].
  rewrite (proj1 (arrow_presses_add_up st event lays Hnd) (or_intror eq_refl)).
  reflexivity.
Defined.

End arrows_repeated.

(** ** More on pointer presses *)

Section presses.
Implicit Types (st : SelectionElement) (el child : node).
Implicit Types (event : PointerEvent.t).

(** X12. The pointer handler raises exactly when the press is not on the
    host, has not been default-prevented, and its target has no parent
    element: the handler then reads the marker of [null].  In every other
    case it returns. *)
Theorem handlePointerDown_raises_iff st event :
  handlePointerDown st event = None ↔
  PointerEvent.target event ≠ this st ∧
  PointerEvent.defaultPrevented event = false ∧
  parentElement st !! PointerEvent.target event = None.
Proof.
  unfold handlePointerDown, retarget.
  destruct (decide (PointerEvent.target event = this st)) as [E|Hne].
  { split; [done|]. by intros [? _]. }
  destruct (PointerEvent.defaultPrevented event).
  { split; [done|]. by intros (_ & ? & _). }
  destruct (parentElement st !! PointerEvent.target event) as [p|] eqn:Hp.
  - split; [|by intros (_ & _ & ?)].
    case_decide; simpl; destruct (_ && _), (isSelected st _); done.
  - rewrite decide_True by done. simpl. by split.
Qed.

(** X13. A press without shift (or in single-selection mode) on an
    unselected child is the assignment of that child to [selectedChild]
    followed by the notification; in multi-selection mode a shift-press on
    an unselected child adds the marker to it and notifies, without the
    clearing that the assignment does. *)
Theorem press_is_assignment_then_notification st event child :
  PointerEvent.defaultPrevented event = false →
  PointerEvent.target event ≠ this st →
  retarget st (PointerEvent.target event) = Some child →
  child ∈ children st →
  isSelected st child = false →
  (allowMultipeSelections st && PointerEvent.shiftKey event = false →
   handlePointerDown st event
   = Some (notifySelectionChange (set_selectedChild st (Some child)))) ∧
  (allowMultipeSelections st && PointerEvent.shiftKey event = true →
   handlePointerDown st event
   = Some (notifySelectionChange (addToSelection st child))).
Proof.
  intros Hdp Hne Hre Hc Hs.
  rewrite (handlePointerDown_resolved st event child) by done.
  rewrite Hs, set_selectedChild_inside by done.
  split; intros ->; done.
Qed.

Lemma press_is_assignment_then_notification_witness :
  let st := Examples.gallery in
  let event := Examples.press 3 false in
  isSelected st 3 = false ∧
  handlePointerDown st event
  = Some (notifySelectionChange (set_selectedChild st (Some 3%nat))).
Proof.
  intros st event. split; [reflexivity|].
  apply (press_is_assignment_then_notification st event 3%nat);
    [reflexivity|compute_done|compute_done|compute_done|reflexivity
    |reflexivity].
Defined.

(** X14. Two shift-presses on the same element in multi-selection mode
    bring every marker back to where it was, on every element, and dispatch
    [change], [input], [change], [input]. *)
Theorem two_shift_presses_cancel st event el :
  allowMultipeSelections st = true →
  PointerEvent.shiftKey event = true →
  PointerEvent.defaultPrevented event = false →
  PointerEvent.target event ≠ this st →
  retarget st (PointerEvent.target event) = Some el →
  ∃ st1 st2,
    handlePointerDown st event = Some st1 ∧
    handlePointerDown st1 event = Some st2 ∧
    (∀ n, isSelected st2 n = isSelected st n) ∧
    selectedChildren st2 = selectedChildren st ∧
    dispatched st2
    = (dispatched st ++ ["change"; "input"; "change"; "input"]%string)%list.
Proof.
  intros Hmulti Hshift Hdp Hne Hre.
  rewrite (handlePointerDown_resolved st event el) by done.
  rewrite Hmulti, Hshift. simpl.
  assert (∀ st1 st2 : SelectionElement,
            children st2 = children st →
            (∀ n, isSelected st2 n = isSelected st n) →
            selectedChildren st2 = selectedChildren st) as Hsame.
  { intros st1 st2 Hc Hall. unfold selectedChildren. rewrite Hc.
    apply list_filter_iff. intros n. by rewrite Hall. }
  destruct (isSelected st el) eqn:E.
  - eexists _, _. split; [done|].
    rewrite (handlePointerDown_resolved _ event el) by done.
    simpl. rewrite Hmulti, Hshift. simpl.
    unfold notifySelectionChange at 1.
    rewrite isSelected_perform, isSelected_removeFromSelection.
    rewrite decide_True by done.
    split; [done|].
    assert (∀ n, isSelected
                   (notifySelectionChange
                      (addToSelection
                         (notifySelectionChange (removeFromSelection st el))
                         el)) n = isSelected st n) as Hall.
    { intros n. unfold notifySelectionChange.
      rewrite isSelected_perform, isSelected_addToSelection.
      rewrite isSelected_perform, isSelected_removeFromSelection.
      destruct (decide (n = el)) as [->|]; done. }
    split_and!; [done|by apply (Hsame st)|].
    rewrite !dispatched_notifySelectionChange. unfold dispatched. simpl.
    by rewrite omap_app, <- app_assoc.
  - eexists _, _. split; [done|].
    rewrite (handlePointerDown_resolved _ event el) by done.
    simpl. rewrite Hmulti, Hshift. simpl.
    unfold notifySelectionChange at 1.
    rewrite isSelected_perform, isSelected_addToSelection.
    rewrite decide_True by done.
    split; [done|].
    assert (∀ n, isSelected
                   (notifySelectionChange
                      (removeFromSelection
                         (notifySelectionChange (addToSelection st el))
                         el)) n = isSelected st n) as Hall.
    { intros n. unfold notifySelectionChange.
      rewrite isSelected_perform, isSelected_removeFromSelection.
      rewrite isSelected_perform, isSelected_addToSelection.
      destruct (decide (n = el)) as [->|]; done. }
    split_and!; [done|by apply (Hsame st)|].
    rewrite !dispatched_notifySelectionChange. unfold dispatched. simpl.
    by rewrite omap_app, <- app_assoc.
Qed.

Lemma two_shift_presses_cancel_witness :
  let st := Examples.gallery in
  let event := Examples.press 4 true in
  ∃ st1 st2,
    handlePointerDown st event = Some st1 ∧
    handlePointerDown st1 event = Some st2 ∧
    (∀ n, isSelected st2 n = isSelected st n) ∧
    selectedChildren st2 = selectedChildren st ∧
    dispatched st2
    = (dispatched st ++ ["change"; "input"; "change"; "input"]%string)%list.
Proof.
  intros st event.
  apply (two_shift_presses_cancel st event 4%nat);
    [reflexivity|reflexivity|reflexivity|compute_done|compute_done].
Defined.

End presses.

(** ** Presses below the children *)

Section deep_presses.
Implicit Types (st : SelectionElement) (el child : node).
Implicit Types (event : PointerEvent.t).

Lemma retarget_onlyMarkersChanged st st' el :
  onlyMarkersChanged st st' → retarget st' el = retarget st el.
Proof. intros (Ht & _ & Hp & _). unfold retarget. by rewrite Ht, Hp. Qed.

(** X15. A press without shift (or in single-selection mode) whose
    retargeted element is not a child of the control and does not carry the
    marker: every child is deselected, the marker is put on that element,
    and [change] then [input] are dispatched.  The marker then stays:
    pressing again does nothing, and [selectedChildren] does not show it. *)
Theorem press_below_children_marks_non_child st event el :
  PointerEvent.defaultPrevented event = false →
  PointerEvent.target event ≠ this st →
  retarget st (PointerEvent.target event) = Some el →
  el ∉ children st →
  isSelected st el = false →
  allowMultipeSelections st && PointerEvent.shiftKey event = false →
  ∃ st', handlePointerDown st event = Some st' ∧
         isSelected st' el = true ∧
         selectedChildren st' = [] ∧
         selectedIndex st' = -1 ∧
         effects st'
         = (effects st ++ [DispatchEvent "change"; DispatchEvent "input"])%list ∧
         handlePointerDown st' event = Some st'.
Proof.
  intros Hdp Hne Hre Hout Hs Hbranch.
  rewrite (handlePointerDown_resolved st event el) by done.
  rewrite Hbranch, Hs. eexists. split; [done|].
  set (st' := notifySelectionChange (addToSelection (clearSelection st) el)).
  assert (isSelected st' el = true) as Hel.
  { unfold st', notifySelectionChange.
    rewrite isSelected_perform, isSelected_addToSelection.
    by rewrite decide_True. }
  assert (selectedChildren st' = []) as Hnil.
  { unfold st', notifySelectionChange. rewrite selectedChildren_perform.
    by apply selectedChildren_exclusive_outside. }
  split_and!; [done|done|by apply selectedIndex_none| |].
  - unfold st'. rewrite effects_notifySelectionChange. simpl.
    by rewrite effects_clearSelection.
  - assert (onlyMarkersChanged st st') as Hframe
      by apply onlyMarkersChanged_notify, onlyMarkersChanged_exclusive.
    rewrite (handlePointerDown_resolved st' event el).
    + rewrite Hel.
      assert (allowMultipeSelections st' = allowMultipeSelections st) as ->.
      { unfold st'. simpl. apply allowMultipeSelections_clearSelection. }
      by rewrite Hbranch.
    + by rewrite (proj1 Hframe).
    + done.
    + by rewrite (retarget_onlyMarkersChanged st st').
Qed.

Lemma press_below_children_marks_non_child_witness :
  let st := Examples.list3_second in
  let event := Examples.press 5 false in
  (4%nat ∉ children st) ∧
  selectedChildren st = [2%nat] ∧
  ∃ st', handlePointerDown st event = Some st' ∧
         isSelected st' 4 = true ∧
         selectedChildren st' = [] ∧
         selectedIndex st' = -1 ∧
         effects st'
         = (effects st ++ [DispatchEvent "change"; DispatchEvent "input"])%list ∧
         handlePointerDown st' event = Some st'.
Proof.
  intros st event.
  assert (4%nat ∉ children st) as Hout by compute_done.
  split; [exact Hout|]. split; [reflexivity|].
  apply (press_below_children_marks_non_child st event 4%nat);
    [reflexivity|compute_done|reflexivity|exact Hout|reflexivity|reflexivity].
Defined.

End deep_presses.

Section shallow_presses.
Implicit Types (st : SelectionElement) (el child : node).

(** X16. In a consistent tree the handler's retargeting yields a child of
    the control exactly for a target that is a child or whose parent is a
    child, and that child is then the target's nearest ancestor among the
    children. *)
Theorem retarget_yields_child_iff st el child :
  wf st →
  (retarget st el = Some child ∧ child ∈ children st ↔
   child ∈ children st ∧
   (el = child ∨ parentElement st !! el = Some child)) ∧
  (retarget st el = Some child → child ∈ children st →
   ∀ depth, (2 ≤ depth)%nat → directChildAncestor st depth el = Some child).
Proof.
  intros Hwf.
  assert (retarget st el = Some child → child ∈ children st →
          el = child ∨ parentElement st !! el = Some child) as Hshape.
  { unfold retarget. intros Hre Hc. case_decide; [by right|].
    left. by simplify_eq. }
  split; [split|].
  - intros [Hre Hc]. split; [done|]. by apply Hshape.
  - intros [Hc [->|Hp]]; (split; [|done]).
    + by apply retarget_child.
    + by eapply retarget_grandchild.
  - intros Hre Hc depth Hdepth.
    destruct depth as [|[|depth]]; [lia..|].
    destruct Hwf as (_ & Hpar & _ & Hthis).
    pose proof (proj1 (Forall_forall _ _) Hpar child Hc) as Hchild.
    destruct (Hshape Hre Hc) as [->|Hp]; simpl.
    + rewrite Hchild. simpl. by rewrite decide_True.
    + rewrite Hp. simpl. rewrite decide_False by (intros ->; done).
      rewrite Hchild. simpl. by rewrite decide_True.
Qed.

Lemma retarget_yields_child_iff_witness :
  let st := Examples.list3 in
  wf st ∧
  retarget st 4 = Some 1%nat ∧ directChildAncestor st 2 4 = Some 1%nat.
Proof.
  intros st.
  assert (wf st) as Hwf by compute_done.
  split; [exact Hwf|].
  destruct (retarget_yields_child_iff st 4%nat 1%nat Hwf) as [Hiff Hnear].
  assert (retarget st 4 = Some 1%nat) as Hre by reflexivity.
  split; [exact Hre|].
  apply Hnear; [exact Hre|compute_done|lia].
Defined.

End shallow_presses.

(** ** Switching the mode *)

Section modes.
Implicit Types (st : SelectionElement) (el child : node).

Lemma allowMultipeSelections_step st op :
  allowMultipeSelections (step st op) = allowMultipeSelections st.
Proof.
  unfold step. destruct op as [value|element|event lay|event]; simpl.
  - apply allowMultipeSelections_set_selectedIndex.
  - apply allowMultipeSelections_set_selectedChild.
  - destruct (newSelectionIndex_cases st lay (KeyboardEvent.key event))
      as [H|(n & H & _)].
    + by rewrite (keyHandler_unclaimed _ _ _ H).
    + rewrite (keyHandler_claimed _ _ _ _ H). simpl.
      case_decide; [|done]. apply allowMultipeSelections_commit.
  - unfold handlePointerDown. case_decide; [done|].
    destruct (PointerEvent.defaultPrevented event); [done|].
    destruct (retarget st _) as [el|]; [|done]. simpl.
    destruct (_ && _), (isSelected st el); simpl; try done.
    apply allowMultipeSelections_clearSelection.
Qed.

Lemma children_act st a : children (act st a) = children st.
Proof.
  destruct a as [op|attr oldValue newValue]; simpl.
  - apply children_step.
  - destruct (attributeChangedCallback st attr oldValue newValue) eqn:E;
      [|done].
    simpl. by eapply onlyMarkersChanged_attributeChangedCallback.
Qed.

(** The mode after the callback, and the selection when the mode is off. *)
Lemma attributeChangedCallback_mode st attr oldValue newValue st' :
  NoDup (children st) →
  attributeChangedCallback st attr oldValue newValue = Some st' →
  (attr ≠ "multiple"%string → st' = st) ∧
  (attr = "multiple"%string →
   allowMultipeSelections st' = bool_decide (newValue ≠ None) ∧
   (newValue ≠ None → selectedChildren st' = selectedChildren st) ∧
   (newValue = None → atMostOneSelected st')).
Proof.
  intros Hnd. unfold attributeChangedCallback.
  case_decide as Hattr; [|intros [= <-]; by split].
  destruct newValue as [v|]; simpl.
  - intros [= <-]. split; [done|]. intros _. by split_and!.
  - destruct (Z.gtb_spec (selectedIndex st) (-1)) as [Hgt|Hle]; simpl.
    + destruct (item _ _) as [child|] eqn:E; simpl; [|done].
      intros [= <-]. split; [done|]. intros _. split_and!; [done..|].
      intros _. unfold atMostOneSelected.
      rewrite (proj1 (selection_with_allowMultipeSelections _ _)).
      by apply atMostOneSelected_exclusive.
    + intros [= <-]. split; [done|]. intros _. split_and!; [done..|].
      intros _. unfold atMostOneSelected.
      rewrite (proj1 (selection_with_allowMultipeSelections _ _)).
      assert (selectedIndex st = -1) as Hnone
        by (pose proof (selectedIndex_range st); lia).
      apply selectedIndex_none in Hnone. rewrite Hnone. simpl. lia.
Qed.

(** X17. With the mode switched on and off at will: if "mode off implies
    at most one selected child" holds at the start, it holds after every
    action of every sequence of assignments, key presses, pointer presses
    and attribute changes.  Removing [multiple] re-establishes it whatever
    was selected. *)
Theorem at_most_one_selected_whenever_mode_is_off st (actions : list Action) :
  NoDup (children st) →
  (allowMultipeSelections st = false → atMostOneSelected st) →
  Forall (λ s, allowMultipeSelections s = false → atMostOneSelected s)
         (runActions st actions).
Proof.
  revert st. induction actions as [|a actions IH]; intros st Hnd Hinv; simpl.
  - constructor.
  - assert (allowMultipeSelections (act st a) = false →
            atMostOneSelected (act st a)) as Hinv'.
    { destruct a as [op|attr oldValue newValue]; simpl.
      - rewrite allowMultipeSelections_step. intros Hmode.
        by apply single_mode_step; [| |apply Hinv].
      - destruct (attributeChangedCallback st attr oldValue newValue)
          as [st'|] eqn:E; [|done]. simpl.
        destruct (attributeChangedCallback_mode _ _ _ _ _ Hnd E)
          as [Hother Hmultiple].
        destruct (decide (attr = "multiple"%string)) as [Hattr|Hattr].
        + destruct (Hmultiple Hattr) as (Hmode & _ & Hoff).
          rewrite Hmode. intros Hfalse. apply Hoff.
          apply bool_decide_eq_false in Hfalse.
          by destruct newValue; [exfalso; apply Hfalse|].
        + by rewrite (Hother Hattr). }
    constructor; [done|]. apply IH; [|done].
    by rewrite children_act.
Qed.

Lemma at_most_one_selected_whenever_mode_is_off_witness :
  let st := Examples.gallery in
  let actions :=
    [Perform (PointerDown (Examples.press 1 true));
     AttributeChanged "multiple" (Some EmptyString) None;
     Perform (PointerDown (Examples.press 3 true));
     AttributeChanged "multiple" None (Some EmptyString);
     Perform (PointerDown (Examples.press 5 true))] in
  NoDup (children st) ∧
  (selectedChildren <$> runActions st actions)
  = [[1; 2; 4; 5]; [1]; [3]; [3]; [3; 5]]%nat ∧
  Forall (λ s, allowMultipeSelections s = false → atMostOneSelected s)
         (runActions st actions).
Proof.
  intros st actions.
  assert (NoDup (children st)) as Hnd by compute_done.
  split; [exact Hnd|]. split; [by vm_compute|].
  apply (at_most_one_selected_whenever_mode_is_off st actions Hnd).
  discriminate.
Defined.

End modes.

(** ** What is dispatched *)

Section dispatch.
Implicit Types (st : SelectionElement) (lay : Layout) (el child : node).

Lemma effects_commit st n :
  effects (commit st n)
  = (effects st
     ++ match selectedChild (set_selectedIndex st n) with
        | Some child => [ScrollIntoView child]
        | None => []
        end
     ++ [DispatchEvent "change"; DispatchEvent "input"])%list.
Proof.
  unfold commit, notifySelectionChange, scrollSelectionIntoView.
  pose proof (proj1 (setters_dispatch_nothing st n None)) as He.
  destruct (selectedChild _); simpl; rewrite He; [|done].
  by rewrite <- app_assoc.
Qed.

Lemma selectedChild_commit st n :
  selectedChild (commit st n) = selectedChild (set_selectedIndex st n).
Proof. by rewrite !selectedChild_head, selectedChildren_commit. Qed.

(** X18. What one operation adds to the effects of the element, and
    nothing before it is touched: nothing; or [change] then [input]; or,
    for a key press only, a [scrollIntoView] request for the child that is
    [selectedChild] afterwards, then [change] and [input].  The setters and
    the change of an attribute add nothing. *)
Theorem effects_of_an_operation st :
  (∀ op,
     effects (step st op) = effects st ∨
     effects (step st op)
     = (effects st ++ [DispatchEvent "change"; DispatchEvent "input"])%list ∨
     ∃ child event lay,
       op = KeyDown event lay ∧ selectedChild (step st op) = Some child ∧
       effects (step st op)
       = (effects st ++ [ScrollIntoView child; DispatchEvent "change";
                         DispatchEvent "input"])%list) ∧
  (∀ value, effects (step st (SetSelectedIndex value)) = effects st) ∧
  (∀ element, effects (step st (SetSelectedChild element)) = effects st) ∧
  (∀ attr oldValue newValue,
     effects (act st (AttributeChanged attr oldValue newValue)) = effects st).
Proof.
  split_and!.
  - intros op. unfold step.
    destruct op as [value|element|event lay|event]; simpl.
    + left. apply setters_dispatch_nothing. exact None.
    + left. apply (setters_dispatch_nothing st 0).
    + destruct (newSelectionIndex_cases st lay (KeyboardEvent.key event))
        as [H|(n & H & _)].
      * left. by rewrite (keyHandler_unclaimed _ _ _ H).
      * rewrite (keyHandler_claimed _ _ _ _ H). simpl.
        case_decide; [|by left]. right.
        rewrite effects_commit, selectedChild_commit.
        destruct (selectedChild (set_selectedIndex st n)) as [child|];
          [right|by left].
        exists child, event, lay. done.
    + unfold handlePointerDown. case_decide; [by left|].
      destruct (PointerEvent.defaultPrevented event); [by left|].
      destruct (retarget st _) as [el|]; [|by left]. simpl.
      destruct (_ && _), (isSelected st el); simpl; try (by left);
        right; left; try done.
      by rewrite effects_clearSelection.
  - intros value. apply setters_dispatch_nothing. exact None.
  - intros element. apply (setters_dispatch_nothing st 0).
  - intros attr oldValue newValue. simpl. unfold attributeChangedCallback.
    case_decide; [|done].
    destruct newValue as [v|]; simpl; [done|].
    destruct (selectedIndex st >? -1); simpl; [|done].
    destruct (item _ _); simpl; [|done]. apply effects_clearSelection.
Qed.

End dispatch.

(** ** The life of the listeners *)

Section listeners.
Import Listeners.
Implicit Types (r : Listeners.t) (l : list HostListener) (ev : Event).

Lemma elem_of_pending l (k : nat) : k ∈ pending l ↔ FocusOutOnce k ∈ l.
Proof.
  unfold pending. rewrite list_elem_of_omap. split.
  - intros (h & Hin & Hh). destruct h; simplify_eq. done.
  - intros Hin. by exists (FocusOutOnce k).
Qed.

Lemma pending_addEventListener l h :
  pending (addEventListener l h)
  = if decide (h ∈ l) then pending l else (pending l ++ pending [h])%list.
Proof.
  unfold addEventListener. case_decide; [done|]. unfold pending.
  by rewrite omap_app.
Qed.

Lemma pending_removeEventListener l h :
  pending [h] = [] → pending (removeEventListener l h) = pending l.
Proof.
  intros Hh. unfold removeEventListener.
  induction l as [|a l IH]; [done|].
  rewrite filter_cons. destruct (decide (a ≠ h)) as [Hne|Heq].
  - destruct a; simpl; by rewrite ?IH.
  - assert (a = h) as -> by (by destruct (decide (a = h))).
    rewrite IH. destruct h; simpl in *; done.
Qed.

Lemma NoDup_addEventListener {A} `{EqDecision A} (l : list A) (h : A) :
  NoDup l → NoDup (addEventListener l h).
Proof.
  intros Hnd. unfold addEventListener. case_decide; [done|].
  apply NoDup_app. split_and!; [done| |apply NoDup_singleton].
  intros x Hx ->%list_elem_of_singleton. done.
Qed.

Lemma elem_of_addEventListener {A} `{EqDecision A} (l : list A) (h x : A) :
  x ∈ addEventListener l h ↔ x ∈ l ∨ x = h.
Proof.
  unfold addEventListener. case_decide.
  - split; [by left|]. by intros [?| ->].
  - rewrite elem_of_app, list_elem_of_singleton. done.
Qed.

Lemma elem_of_removeEventListener {A} `{EqDecision A} (l : list A) (h x : A) :
  x ∈ removeEventListener l h ↔ x ∈ l ∧ x ≠ h.
Proof. unfold removeEventListener. rewrite list_elem_of_filter. tauto. Qed.

Lemma elem_of_foldl_removeEventListener (ks d : list nat) (x : nat) :
  x ∈ foldl removeEventListener d ks ↔ x ∈ d ∧ x ∉ ks.
Proof.
  revert d. induction ks as [|k ks IH]; intros d; simpl.
  - split; [intros ?; split; [done|apply not_elem_of_nil]|by intros [? _]].
  - rewrite IH, elem_of_removeEventListener, not_elem_of_cons. tauto.
Qed.

Lemma consistent_deliver r ev : consistent r → consistent (deliver r ev).
Proof.
  intros (Hdoc & Hnd & Hndd & Hlt). destruct ev; simpl.
  - unfold consistent. simpl. split_and!; [|by do 2 apply NoDup_addEventListener|done..].
    rewrite !pending_addEventListener. repeat case_decide; simpl;
      by rewrite ?app_nil_r.
  - unfold consistent. simpl. split_and!; [|by do 2 apply NoDup_filter|done..].
    by rewrite !pending_removeEventListener.
  - case_decide; [|by split_and!].
    assert (closures r ∉ document r) as Hfresh.
    { intros Hin. eapply Forall_forall in Hlt; [|exact Hin].
      simpl in Hlt. lia. }
    assert (FocusOutOnce (closures r) ∉ element r) as Hfresh'.
    { rewrite <- elem_of_pending, <- Hdoc. done. }
    unfold consistent, handleFocusIn. simpl. split_and!.
    + rewrite pending_addEventListener. unfold addEventListener.
      rewrite !decide_False by done. by rewrite Hdoc.
    + by apply NoDup_addEventListener.
    + by apply NoDup_addEventListener.
    + unfold addEventListener. rewrite decide_False by done.
      apply Forall_app. split.
      * eapply Forall_impl; [done|]. simpl. lia.
      * repeat constructor.
  - assert (foldl removeEventListener (document r) (pending (element r)) = [])
      as Hempty.
    { apply elem_of_nil_inv. intros x.
      rewrite elem_of_foldl_removeEventListener, <- Hdoc. tauto. }
    unfold consistent. simpl. rewrite Hempty. split_and!.
    + symmetry. apply elem_of_nil_inv. intros k.
      rewrite elem_of_pending, list_elem_of_filter. by intros [? _].
    + by apply NoDup_filter.
    + constructor.
    + constructor.
Qed.

Lemma consistent_foldl r evs :
  consistent r → consistent (foldl deliver r evs).
Proof.
  revert r. induction evs as [|ev evs IH]; intros r Hr; simpl; [done|].
  by apply IH, consistent_deliver.
Qed.

Lemma consistent_initial : consistent initial.
Proof. unfold consistent. simpl. split_and!; constructor. Qed.

(** X19. The [keydown] listeners over the life of an element.  After any
    history of connections, disconnections, [focusin] and [focusout]
    events, the closures the element has on the document are exactly those
    that a one-shot [focusout] arrow will remove, each once.  Then: a
    [focusin] while [#focusInHandler] is registered adds one new closure
    and is ignored otherwise; a [focusout] removes every closure and
    leaves no arrow behind; connecting registers the two handlers of the
    element (once, however often it is called) and disconnecting
    unregisters them, and neither touches the closures on the document nor
    the waiting arrows. *)
Theorem keydown_listeners_follow_focus (evs : list Event) (ev : Event) :
  let r := foldl deliver initial evs in
  let r' := deliver r ev in
  document r = pending (element r) ∧ NoDup (document r) ∧
  NoDup (element r') ∧
  match ev with
  | FocusIn =>
      (FocusInHandler ∈ element r →
       (closures r ∉ document r) ∧
       document r' = (document r ++ [closures r])%list) ∧
      (FocusInHandler ∉ element r → r' = r)
  | FocusOut => document r' = [] ∧ pending (element r') = []
  | Connected =>
      FocusInHandler ∈ element r' ∧ PointerDownHandler ∈ element r' ∧
      document r' = document r ∧ pending (element r') = pending (element r)
  | Disconnected =>
      (FocusInHandler ∉ element r') ∧ (PointerDownHandler ∉ element r') ∧
      document r' = document r ∧ pending (element r') = pending (element r)
  end.
Proof.
  intros r r'.
  assert (consistent r) as Hr
    by (apply consistent_foldl, consistent_initial).
  assert (consistent r') as Hr' by (by apply consistent_deliver).
  destruct Hr as (Hdoc & Hnd & Hndd & Hlt).
  split; [done|]. split; [done|]. split; [apply Hr'|].
  destruct Hr' as (Hdoc' & _).
  unfold r' in *. destruct ev; simpl in *.
  - split_and!; [| |done|by rewrite <- Hdoc', Hdoc].
    + rewrite !elem_of_addEventListener. by left; right.
    + rewrite !elem_of_addEventListener. by right.
  - split_and!; [| |done|by rewrite <- Hdoc', Hdoc].
    + rewrite !elem_of_removeEventListener. tauto.
    + rewrite !elem_of_removeEventListener. tauto.
  - split.
    + intros Hin. rewrite decide_True by done. simpl.
      assert (closures r ∉ document r) as Hfresh.
      { intros Hk. eapply Forall_forall in Hlt; [|exact Hk].
        simpl in Hlt. lia. }
      split; [done|]. unfold addEventListener. by rewrite decide_False.
    + intros Hout. by rewrite decide_False.
  - assert (foldl removeEventListener (document r) (pending (element r)) = [])
      as Hempty.
    { apply elem_of_nil_inv. intros x.
      rewrite elem_of_foldl_removeEventListener, <- Hdoc. tauto. }
    split; [done|]. by rewrite <- Hdoc'.
Qed.

End listeners.

(** ** The mode and the keyboard *)

Section mode_blind.
Implicit Types (st : SelectionElement) (lay : Layout) (b : bool).

Lemma foldl_remove_with_allowMultipeSelections (l : list node) st b :
  foldl removeFromSelection (with_allowMultipeSelections st b) l
  = with_allowMultipeSelections (foldl removeFromSelection st l) b.
Proof.
  revert st. induction l as [|e l IH]; intros st; simpl; [done|].
  by rewrite <- IH.
Qed.

Lemma clearSelection_with_allowMultipeSelections st b :
  clearSelection (with_allowMultipeSelections st b)
  = with_allowMultipeSelections (clearSelection st) b.
Proof.
  unfold clearSelection.
  rewrite (proj1 (selection_with_allowMultipeSelections st b)).
  apply foldl_remove_with_allowMultipeSelections.
Qed.

Lemma set_selectedIndex_with_allowMultipeSelections st b value :
  set_selectedIndex (with_allowMultipeSelections st b) value
  = with_allowMultipeSelections (set_selectedIndex st value) b.
Proof.
  unfold set_selectedIndex. rewrite clearSelection_with_allowMultipeSelections.
  unfold length_. simpl. destruct (_ && _); [|done]. by destruct (item _ _).
Qed.

Lemma set_selectedChild_with_allowMultipeSelections st b element :
  set_selectedChild (with_allowMultipeSelections st b) element
  = with_allowMultipeSelections (set_selectedChild st element) b.
Proof.
  unfold set_selectedChild. rewrite clearSelection_with_allowMultipeSelections.
  simpl. generalize (clearSelection st) as st1. intros st1.
  induction (children st1) as [|c rest IH]; simpl; [done|]. by case_decide.
Qed.

Lemma newSelectionIndex_with_allowMultipeSelections st b lay key :
  newSelectionIndex (with_allowMultipeSelections st b) lay key
  = newSelectionIndex st lay key.
Proof.
  unfold newSelectionIndex, getPreviousNonvisibleChildIndex,
    getNextNonvisibleChildIndex, length_.
  by rewrite !(proj2 (selection_with_allowMultipeSelections st b)).
Qed.

(** X22. The keyboard and the setters do not look at the mode: with
    [#allowMultipeSelections] set to any value beforehand, the key handler
    and both setters return the state they return otherwise, with that
    value of the flag. *)
Theorem keyboard_and_setters_ignore_the_mode st b lay event value element :
  keyHandler (with_allowMultipeSelections st b) lay event
  = (λ r, (with_allowMultipeSelections r.1 b, r.2))
      <$> keyHandler st lay event ∧
  set_selectedIndex (with_allowMultipeSelections st b) value
  = with_allowMultipeSelections (set_selectedIndex st value) b ∧
  set_selectedChild (with_allowMultipeSelections st b) element
  = with_allowMultipeSelections (set_selectedChild st element) b.
Proof.
  split_and!.
  - unfold keyHandler.
    rewrite newSelectionIndex_with_allowMultipeSelections.
    destruct (newSelectionIndex st lay _) as [[n|]|]; simpl; [|done..].
    rewrite (proj2 (selection_with_allowMultipeSelections st b)).
    case_decide; simpl; [|done].
    rewrite set_selectedIndex_with_allowMultipeSelections.
    unfold scrollSelectionIntoView, selectedChild.
    rewrite (proj2 (selection_with_allowMultipeSelections _ b)). simpl.
    destruct (_ >? _); [|done]. by destruct (item _ _).
  - apply set_selectedIndex_with_allowMultipeSelections.
  - apply set_selectedChild_with_allowMultipeSelections.
Qed.

End mode_blind.
